(** * rw-ws-score: the WebSocket score relay and its client

    A shallow embedding of
    - [api/server.config.js]: the two process-wide objects [wsConnections]
      and [players], the ['message'] and ['close'] handlers that
      [configureFastify] attaches to every [/ws] connection;
    - [web/src/components/WsContext/WsContext.tsx]: [socket.onmessage],
      [setScore] and the effect of the [WsContextProvider];
    - [HomePage] and [App]: the two inputs, the list that renders the cached
      snapshot, and the error boundary above the provider.

    The handlers are JavaScript, so the embedding follows JavaScript: a
    plain object keeps its own properties in [[OwnPropertyKeys]] order and has
    a prototype, an assignment [o[k] = v] goes through the prototype chain
    when [k] is not an own property, a property key is the string a value
    converts to, and an exception leaves the mutations made before it. *)

From Stdlib Require Import String Ascii List Bool Arith NArith Lia.
Import ListNotations.
Local Open Scope string_scope.
Local Open Scope list_scope.
Set Warnings "-register-all".

(** ** Values *)

(** What [JSON.parse] can return.  A number is carried as the text
    [Number::toString] gives for it (["5"], ["1.5"], ["1e+21"], ["Infinity"]
    for an overflowing literal): the relay never computes with a number, it
    only converts it to a property key or serializes it again.  An object
    lists its own properties in order, each key once. *)
Inductive Json : Type :=
| JNull
| JBool (b : bool)
| JNum (canon : string)
| JStr (s : string)
| JArr (items : list Json)
| JObj (members : list (string * Json)).

(** A JavaScript value as the handlers see it: [undefined], or a JSON value. *)
Inductive Value : Type :=
| undefined
| Of (j : Json).

(** A connection handle ([connection] in the route handler): one per client
    socket, identified by a number. *)
Definition Conn : Type := nat.

(** The exceptions the handlers can meet. *)
Inductive Exn : Type :=
| SyntaxError        (* JSON.parse on text that is not JSON *)
| TypeError          (* property read on null, key conversion, read-only property *)
| SendError          (* socket.send raised *)
| InvalidStateError. (* browser WebSocket.send while CONNECTING *)

(** Text that arrives on a socket, represented by what [JSON.parse] makes of
    it: either it is not JSON (the parser throws), or it is the text of a JSON
    value. *)
Inductive Message : Type :=
| NotJson (text : string)
| JsonText (v : Json).

Definition JSON_parse (message : Message) : Exn + Json :=
  match message with
  | NotJson _ => inl SyntaxError
  | JsonText v => inr v
  end.

(** ** Property lists *)

Section Props.
Context {V : Type}.

Fixpoint get_own (k : string) (ps : list (string * V)) : option V :=
  match ps with
  | [] => None
  | (k', v) :: rest => if String.eqb k k' then Some v else get_own k rest
  end.

Definition has_own (k : string) (ps : list (string * V)) : bool :=
  match get_own k ps with Some _ => true | None => false end.

(** Writing an existing own property keeps its place in the key order. *)
Fixpoint update (k : string) (v : V) (ps : list (string * V)) : list (string * V) :=
  match ps with
  | [] => []
  | (k', v') :: rest =>
      if String.eqb k k' then (k', v) :: rest else (k', v') :: update k v rest
  end.

End Props.

(** An array index is a canonical numeric string below 2^32 - 1:
    ["0"], ["7"], ["42"], but not ["07"], ["-1"], ["1.5"] or [""]. *)
Definition digit (a : ascii) : option N :=
  let n := N_of_ascii a in
  if (48 <=? n)%N && (n <=? 57)%N then Some (n - 48)%N else None.

Fixpoint digits (s : string) (acc : N) : option N :=
  match s with
  | EmptyString => Some acc
  | String a rest =>
      match digit a with
      | Some d => digits rest (10 * acc + d)%N
      | None => None
      end
  end.

Definition array_index (s : string) : option N :=
  match s with
  | EmptyString => None
  | String a rest =>
      if Ascii.eqb a "0"%char && negb (String.eqb rest "") then None
      else match digits s 0%N with
           | Some n => if (n <? 4294967295)%N then Some n else None
           | None => None
           end
  end.

(** [comes_before k k']: a new key [k] is listed before the existing key
    [k'].  Array indices come first, in ascending order; every other key
    stays in creation order, so a new one goes last. *)
Definition comes_before (k k' : string) : bool :=
  match array_index k, array_index k' with
  | Some n, Some n' => (n <? n')%N
  | Some _, None => true
  | None, _ => false
  end.

Section Create.
Context {V : Type}.

(** Creating an own property that does not exist yet. *)
Fixpoint create (k : string) (v : V) (ps : list (string * V)) : list (string * V) :=
  match ps with
  | [] => [(k, v)]
  | (k', v') :: rest =>
      if comes_before k k' then (k, v) :: ps else (k', v') :: create k v rest
  end.

(** [Object.values]. *)
Definition Object_values (ps : list (string * V)) : list V := map snd ps.

Definition Object_keys (ps : list (string * V)) : list string := map fst ps.

End Create.

(** ** Converting a value to a property key *)

Definition sequence {A B : Type} (x : Exn + A) (f : A -> Exn + B) : Exn + B :=
  match x with
  | inl e => inl e
  | inr a => f a
  end.

(** [ToString] on a parsed value.  An array joins its elements with commas,
    [null] elements giving the empty string.  An object answers through
    [Object.prototype.toString] unless it has an own ["toString"] member: a
    member parsed from JSON is never callable, [valueOf] then returns the
    object itself or is not callable either, and the conversion throws. *)
Fixpoint ToString (v : Json) : Exn + string :=
  match v with
  | JNull => inr "null"
  | JBool true => inr "true"
  | JBool false => inr "false"
  | JNum canon => inr canon
  | JStr s => inr s
  | JArr items =>
      (fix join (l : list Json) : Exn + string :=
         match l with
         | [] => inr ""
         | x :: rest =>
             sequence (match x with JNull => inr "" | _ => ToString x end)
               (fun s =>
                  match rest with
                  | [] => inr s
                  | _ => sequence (join rest) (fun r => inr (s ++ "," ++ r)%string)
                  end)
         end) items
  | JObj members =>
      if has_own "toString" members then inl TypeError
      else inr "[object Object]"
  end.

Definition ToPropertyKey (v : Value) : Exn + string :=
  match v with
  | undefined => inr "undefined"
  | Of j => ToString j
  end.

(** [player.playerId] and [player.score]: reading a property that no
    built-in prototype provides.  Reading from [null] throws; an object gives
    its own member or [undefined]; a number, string, boolean or array gives
    [undefined]. *)
Definition read (player : Json) (name : string) : Exn + Value :=
  match player with
  | JNull => inl TypeError
  | JObj members =>
      match get_own name members with
      | Some j => inr (Of j)
      | None => inr undefined
      end
  | _ => inr undefined
  end.

(** ** Serialization *)

(** A number that is not finite is written as [null]. *)
Definition finite (canon : string) : bool :=
  negb (String.eqb canon "Infinity" || String.eqb canon "-Infinity"
        || String.eqb canon "NaN").

Fixpoint rewritten (v : Json) : Json :=
  match v with
  | JNum canon => if finite canon then v else JNull
  | JArr items => JArr (map rewritten items)
  | JObj members => JObj (map (fun '(k, x) => (k, rewritten x)) members)
  | _ => v
  end.

(** [JSON.stringify] of a plain object whose property values were parsed
    from JSON or are [undefined]: the own properties in key order, those
    holding [undefined] left out.  The text is represented by the JSON value
    it denotes. *)
Fixpoint entries (ps : list (string * Value)) : list (string * Json) :=
  match ps with
  | [] => []
  | (k, undefined) :: rest => entries rest
  | (k, Of j) :: rest => (k, rewritten j) :: entries rest
  end.

Definition JSON_stringify (ps : list (string * Value)) : Json :=
  JObj (entries ps).

(** ** Statements *)

(** A statement runs on a state, leaves a state and a trace of effects, and
    completes normally or with an exception.  An exception undoes nothing of
    what ran before it. *)
Section Statements.
Variables S E : Type.

Record Outcome (A : Type) : Type := {
  after : S;
  trace : list E;
  completion : Exn + A
}.

Definition M (A : Type) : Type := S -> Outcome A.

Definition ret {A : Type} (a : A) : M A :=
  fun st => {| after := st; trace := []; completion := inr a |}.

Definition throw {A : Type} (e : Exn) : M A :=
  fun st => {| after := st; trace := []; completion := inl e |}.

Definition bind {A B : Type} (m : M A) (f : A -> M B) : M B :=
  fun st =>
    let o := m st in
    match completion _ o with
    | inl e => {| after := after _ o; trace := trace _ o; completion := inl e |}
    | inr a =>
        let o' := f a (after _ o) in
        {| after := after _ o';
           trace := trace _ o ++ trace _ o';
           completion := completion _ o' |}
    end.

(** [try { body } catch (e) { handler }]. *)
Definition try_catch (body : M unit) (handler : Exn -> M unit) : M unit :=
  fun st =>
    let o := body st in
    match completion _ o with
    | inl e =>
        let o' := handler e (after _ o) in
        {| after := after _ o';
           trace := trace _ o ++ trace _ o';
           completion := completion _ o' |}
    | inr _ => o
    end.

Definition lift {A : Type} (r : Exn + A) : M A :=
  match r with
  | inl e => throw e
  | inr a => ret a
  end.

Definition gets {A : Type} (f : S -> A) : M A :=
  fun st => {| after := st; trace := []; completion := inr (f st) |}.

Definition modify (f : S -> S) : M unit :=
  fun st => {| after := f st; trace := []; completion := inr tt |}.

Definition emit (e : E) : M unit :=
  fun st => {| after := st; trace := [e]; completion := inr tt |}.

End Statements.

Arguments after {S E A} _.
Arguments trace {S E A} _.
Arguments completion {S E A} _.
Arguments ret {S E A} a _.
Arguments throw {S E A} e _.
Arguments bind {S E A B} m f _.
Arguments try_catch {S E} body handler _.
Arguments lift {S E A} r _.
Arguments gets {S E A} f _.
Arguments modify {S E} f _.
Arguments emit {S E} e _.

Declare Scope js_scope.
Delimit Scope js_scope with js.
Notation "x <- m ;; k" := (bind m (fun x => k))
  (at level 61, m at next level, right associativity) : js_scope.
Notation "m ;; k" := (bind m (fun _ => k))
  (at level 61, right associativity) : js_scope.
Local Open Scope js_scope.

(** [array.forEach(callback)]: an exception in a call ends the loop. *)
Fixpoint forEach {S E A : Type} (array : list A) (callback : A -> M S E unit)
  : M S E unit :=
  match array with
  | [] => ret tt
  | x :: rest => callback x ;; forEach rest callback
  end.

(** ** The server's state *)

(** The prototype of [players].  It starts as [Object.prototype]; the
    [__proto__] accessor can replace it by [null] or by an object or array
    that came in as a score. *)
Inductive Proto : Type :=
| Object_prototype
| Null_prototype
| Parsed (j : Json).

(** [const wsConnections = {}] and [const players = {}]: for each, the own
    properties in key order and the prototype.  The prototype of
    [wsConnections] is [Object.prototype] ([None]) or a connection. *)
Record Server : Type := {
  wsConnections : list (string * Conn);
  wsConnections_proto : option Conn;
  players : list (string * Value);
  players_proto : Proto
}.

Definition initial : Server :=
  {| wsConnections := [];
     wsConnections_proto := None;
     players := [];
     players_proto := Object_prototype |}.

(** What the classes of a connection stream do with a write [o[k] = v] that
    reaches them because [k] is not an own property of [o]. *)
Inductive Inherited : Type :=
| Unclaimed   (* nothing takes the write: [o] gets a new own property *)
| Dropped     (* an accessor or read-only property takes it: nothing is created *)
| Rejected.   (* the same, and a TypeError is thrown *)

(** The parts of the WebSocket library that the handler meets and that are
    not in the repository: whether [socket.send] raises on a handle, and what
    the stream classes answer to an inherited write. *)
Record Env : Type := {
  send_raises : Conn -> bool;
  stream_chain : string -> Inherited
}.

Inductive Line : Type :=
| ws_message (message : Message)       (* `/ws message: ${message}` *)
| could_not_parse (message : Message)  (* 'Could not parse input', message *)
| error_object (e : Exn)               (* 'error object:', e *)
| client_disconnected.                 (* 'Client disconnected' *)

Inductive Effect : Type :=
| console_log (line : Line)
| console_error (line : Line)
| socket_send (wsConnection : Conn) (text : Json).

(** ** Assignments to the two objects *)

Definition is_proto_key (k : string) : bool := String.eqb k "__proto__".

Definition with_wsConnections (ps : list (string * Conn)) (st : Server) : Server :=
  {| wsConnections := ps;
     wsConnections_proto := wsConnections_proto st;
     players := players st;
     players_proto := players_proto st |}.

Definition with_wsConnections_proto (p : option Conn) (st : Server) : Server :=
  {| wsConnections := wsConnections st;
     wsConnections_proto := p;
     players := players st;
     players_proto := players_proto st |}.

Definition with_players (ps : list (string * Value)) (st : Server) : Server :=
  {| wsConnections := wsConnections st;
     wsConnections_proto := wsConnections_proto st;
     players := ps;
     players_proto := players_proto st |}.

Definition with_players_proto (p : Proto) (st : Server) : Server :=
  {| wsConnections := wsConnections st;
     wsConnections_proto := wsConnections_proto st;
     players := players st;
     players_proto := p |}.

(** [wsConnections[k] = connection].  An own property is overwritten.
    Otherwise the write goes up the prototype chain: [__proto__] is an
    accessor of [Object.prototype], at the end of every chain here, and its
    setter makes the connection (an object) the prototype of
    [wsConnections]; any other key is created, directly when the prototype
    is still [Object.prototype], and as the stream classes allow once it is a
    connection. *)
Definition assign_wsConnections (env : Env) (k : string) (connection : Conn)
  : M Server Effect unit :=
  own <- gets (fun st => has_own k (wsConnections st)) ;;
  if own then
    modify (fun st => with_wsConnections (update k connection (wsConnections st)) st)
  else if is_proto_key k then
    modify (with_wsConnections_proto (Some connection))
  else
    proto <- gets wsConnections_proto ;;
    match proto with
    | None =>
        modify (fun st => with_wsConnections (create k connection (wsConnections st)) st)
    | Some _ =>
        match stream_chain env k with
        | Unclaimed =>
            modify (fun st => with_wsConnections (create k connection (wsConnections st)) st)
        | Dropped => ret tt
        | Rejected => throw TypeError
        end
    end.

(** Whether a write of [__proto__] on [players] reaches the accessor of
    [Object.prototype]: not when the prototype is [null], and not when it is
    a parsed object with an own member of that name (a writable data
    property, so the write creates an own property instead). *)
Definition reaches_accessor (p : Proto) : bool :=
  match p with
  | Object_prototype => true
  | Null_prototype => false
  | Parsed (JObj members) => negb (has_own "__proto__" members)
  | Parsed _ => true
  end.

(** The [__proto__] setter: an object or [null] becomes the prototype, any
    other value is ignored. *)
Definition set_prototype (v : Value) (p : Proto) : Proto :=
  match v with
  | Of JNull => Null_prototype
  | Of (JObj members) => Parsed (JObj members)
  | Of (JArr items) => Parsed (JArr items)
  | _ => p
  end.

(** [players[k] = score].  Every property a parsed value or a built-in
    prototype can hold is a writable data property, except the [__proto__]
    accessor. *)
Definition assign_players (k : string) (score : Value) : M Server Effect unit :=
  own <- gets (fun st => has_own k (players st)) ;;
  if own then
    modify (fun st => with_players (update k score (players st)) st)
  else
    proto <- gets players_proto ;;
    if is_proto_key k && reaches_accessor proto then
      modify (fun st => with_players_proto (set_prototype score proto) st)
    else
      modify (fun st => with_players (create k score (players st)) st).

(** ** The handlers of [configureFastify] *)

(** [wsConnection.socket.send(text)]. *)
Definition send (env : Env) (wsConnection : Conn) (text : Json)
  : M Server Effect unit :=
  if send_raises env wsConnection then throw SendError
  else emit (socket_send wsConnection text).

(** [Object.values(wsConnections).forEach((wsConnection) => { ... })]. *)
Definition broadcast (env : Env) : M Server Effect unit :=
  values <- gets (fun st => Object_values (wsConnections st)) ;;
  forEach values (fun wsConnection =>
    text <- gets (fun st => JSON_stringify (players st)) ;;
    send env wsConnection text).

(** The [try] block of the ['message'] handler. *)
Definition relay (env : Env) (connection : Conn) (message : Message)
  : M Server Effect unit :=
  player <- lift (JSON_parse message) ;;
  playerId <- lift (read player "playerId") ;;
  k <- lift (ToPropertyKey playerId) ;;
  assign_wsConnections env k connection ;;
  playerId <- lift (read player "playerId") ;;
  score <- lift (read player "score") ;;
  k <- lift (ToPropertyKey playerId) ;;
  assign_players k score ;;
  broadcast env.

(** [connection.socket.on('message', (message) => { ... })]. *)
Definition on_message (env : Env) (connection : Conn) (message : Message)
  : M Server Effect unit :=
  emit (console_log (ws_message message)) ;;
  try_catch (relay env connection message)
    (fun e =>
       emit (console_error (could_not_parse message)) ;;
       emit (console_error (error_object e))).

(** [connection.socket.on('close', () => { ... })]. *)
Definition on_close (connection : Conn) : M Server Effect unit :=
  emit (console_log client_disconnected).

(** ** Runs of the server *)

Inductive Event : Type :=
| connected (connection : Conn)
| message_from (env : Env) (connection : Conn) (message : Message)
| closed (connection : Conn).

(** The route handler only attaches the two listeners to a new connection. *)
Definition step (ev : Event) : M Server Effect unit :=
  match ev with
  | connected _ => ret tt
  | message_from env connection message => on_message env connection message
  | closed connection => on_close connection
  end.

(** The event loop runs one handler to completion, then the next. *)
Fixpoint run (evs : list Event) (st : Server) : Server * list Effect :=
  match evs with
  | [] => (st, [])
  | ev :: rest =>
      let o := step ev st in
      let (st', t) := run rest (after o) in
      (st', trace o ++ t)
  end.

Definition reachable (st : Server) : Prop :=
  exists evs, fst (run evs initial) = st.

(** An update as the wire protocol has it: the text of an object with a
    string [playerId] and a [score]. *)
Definition as_update (message : Message) : option (string * Json) :=
  match message with
  | JsonText (JObj members) =>
      match get_own "playerId" members, get_own "score" members with
      | Some (JStr playerId), Some score => Some (playerId, score)
      | _, _ => None
      end
  | _ => None
  end.

Definition update_message (playerId : string) (score : Json) : Message :=
  JsonText (JObj [("playerId", JStr playerId); ("score", score)]).

Definition parses (message : Message) : bool :=
  match JSON_parse message with
  | inr _ => true
  | inl _ => false
  end.

(** A library in which no send raises and the stream classes claim nothing. *)
Definition quiet : Env :=
  {| send_raises := fun _ => false; stream_chain := fun _ => Unclaimed |}.

(** The connection sent, in these events, a message that [JSON.parse]
    accepts. *)
Definition sent_parsed (h : Conn) (evs : list Event) : Prop :=
  exists env m, In (message_from env h m) evs /\ parses m = true.

(** A library in which every send on handle 1 raises. *)
Definition first_handle_dead : Env :=
  {| send_raises := fun h => Nat.eqb h 1; stream_chain := fun _ => Unclaimed |}.

(** The server after connection 1 has sent [{"playerId":"Alice","score":5}]. *)
Definition alice_registered : Server :=
  fst (run [message_from quiet 1 (update_message "Alice" (JNum "5"))] initial).

(** ** The client: [WsContextProvider] *)

Module WsContext.

Inductive ReadyState : Type := CONNECTING | OPEN | CLOSING | CLOSED.

(** [players] of [useState] and [ws.current]: [None] while the ref is still
    [undefined], otherwise the socket, of which the ready state matters. *)
Record Provider : Type := {
  players : Json;
  ws_current : option ReadyState
}.

Inductive Effect : Type :=
| console_log_onmessage (data : Message)   (* 'onmessage', event.data *)
| console_error_parse (e : Exn)            (* 'JSON.parse error', e *)
| transmitted (text : Json)                (* the frame leaves the browser *)
| closing.                                 (* socket.close() *)

(** [useState<Record<string, number>>({})] and [useRef<WebSocket>()]. *)
Definition initial : Provider :=
  {| players := JObj []; ws_current := None |}.

Definition setPlayers (v : Json) : M Provider Effect unit :=
  modify (fun st => {| players := v; ws_current := ws_current st |}).

(** The effect of [useEffect]: [new WebSocket(url)] starts connecting and
    [ws.current = socket]. *)
Definition mount : M Provider Effect unit :=
  modify (fun st => {| players := players st; ws_current := Some CONNECTING |}).

(** The browser's ready-state transitions of the socket. *)
Definition becomes (rs : ReadyState) : M Provider Effect unit :=
  modify (fun st =>
    {| players := players st;
       ws_current := match ws_current st with
                     | Some _ => Some rs
                     | None => None
                     end |}).

(** The cleanup of the effect: [socket.close()], which starts the closing
    handshake unless the socket is closed already. *)
Definition cleanup : M Provider Effect unit :=
  emit closing ;;
  current <- gets ws_current ;;
  match current with
  | Some CLOSED => ret tt
  | _ => becomes CLOSING
  end.

(** [socket.onmessage]. *)
Definition onmessage (data : Message) : M Provider Effect unit :=
  emit (console_log_onmessage data) ;;
  try_catch
    (players <- lift (JSON_parse data) ;;
     setPlayers players)
    (fun e => emit (console_error_parse e)).

(** [WebSocket.send] of the browser: it throws while the socket is
    connecting, transmits while it is open, and discards the data once the
    socket is closing or closed. *)
Definition WebSocket_send (socket : ReadyState) (text : Json)
  : M Provider Effect unit :=
  match socket with
  | CONNECTING => throw InvalidStateError
  | OPEN => emit (transmitted text)
  | CLOSING | CLOSED => ret tt
  end.

(** [ws.current?.send(JSON.stringify({ playerId, score }))]. *)
Definition setScore (playerId : string) (score : Json) : M Provider Effect unit :=
  current <- gets ws_current ;;
  match current with
  | None => ret tt
  | Some socket =>
      WebSocket_send socket (JObj [("playerId", JStr playerId); ("score", rewritten score)])
  end.

End WsContext.

(** ** Reading a trace *)

(** The handles a trace sends to, in order, and the (handle, text) pairs. *)
Fixpoint sends (t : list Effect) : list (Conn * Json) :=
  match t with
  | [] => []
  | socket_send h text :: rest => (h, text) :: sends rest
  | _ :: rest => sends rest
  end.

Definition recipients (t : list Effect) : list Conn := map fst (sends t).

(** The texts a trace sends to one handle. *)
Definition sends_to (h : Conn) (t : list Effect) : list Json :=
  map snd (filter (fun s => Nat.eqb (fst s) h) (sends t)).

(** The handles a loop over [values] reaches before the first send that
    raises. *)
Fixpoint delivered (env : Env) (values : list Conn) : list Conn :=
  match values with
  | [] => []
  | h :: rest => if send_raises env h then [] else h :: delivered env rest
  end.

(** Under how many identifiers a handle is registered. *)
Definition registrations (h : Conn) (ps : list (string * Conn)) : nat :=
  count_occ Nat.eq_dec (Object_values ps) h.

(** The score of the last update that bears an identifier. *)
Fixpoint last_score (playerId : string) (updates : list (Env * Conn * string * Json))
  : option Json :=
  match updates with
  | [] => None
  | (_, _, playerId', score) :: rest =>
      match last_score playerId rest with
      | Some later => Some later
      | None => if String.eqb playerId playerId' then Some score else None
      end
  end.

Definition update_event (u : Env * Conn * string * Json) : Event :=
  let '(env, connection, playerId, score) := u in
  message_from env connection (update_message playerId score).

(** The two lines of the [catch] block. *)
Definition failure_lines (m : Message) (e : Exn) : list Effect :=
  [console_error (could_not_parse m); console_error (error_object e)].

(** ** Claims of the specification, as they are written *)

(** Every handle in the registry, the sender's included, is sent exactly one
    message, the snapshot taken after the mutation. *)
Definition one_snapshot_each (env : Env) (c : Conn) (m : Message) (st : Server) : Prop :=
  let o := on_message env c m st in
  In c (Object_values (wsConnections (after o))) /\
  forall h, In h (Object_values (wsConnections (after o))) ->
    sends_to h (trace o) = [JSON_stringify (players (after o))].

(** A structure without [playerId] or without [score]. *)
Definition misses_a_field (m : Message) : bool :=
  match m with
  | JsonText (JObj members) =>
      negb (has_own "playerId" members) || negb (has_own "score" members)
  | _ => false
  end.

(** The message is logged as a failure and dropped: both stores are as
    before and nothing is sent. *)
Definition logged_and_dropped (env : Env) (c : Conn) (m : Message) (st : Server) : Prop :=
  let o := on_message env c m st in
  after o = st /\ sends (trace o) = [] /\
  In (console_error (could_not_parse m)) (trace o).


(** A connection that has sent no valid update in a run is sent nothing in
    that run. *)
Definition silent_until_valid (evs : list Event) : Prop :=
  forall h,
    (forall env m, In (message_from env h m) evs -> as_update m = None) ->
    ~ In h (recipients (snd (run evs initial))).

(** The recipients of the broadcast are exactly the registered handles. *)
Definition recipients_are_registry (env : Env) (c : Conn) (m : Message) (st : Server) : Prop :=
  let o := on_message env c m st in
  forall h, In h (recipients (trace o)) <->
            In h (Object_values (wsConnections (after o))).

(** ** Sends that fail *)


(** ** What the [try] block reads from a message *)

(** The key and the score the [try] block computes from a message, or the
    exception it raises before it has written anything: [JSON.parse], the
    reads of [player.playerId] and [player.score], and the conversion of the
    identifier to a property key. *)
Definition decode (message : Message) : Exn + (string * Value) :=
  sequence (JSON_parse message) (fun player =>
  sequence (read player "playerId") (fun playerId =>
  sequence (ToPropertyKey playerId) (fun k =>
  sequence (read player "score") (fun score => inr (k, score))))).

(** The event is a message whose [playerId] converts to the key [k]. *)
Definition bears (k : string) (ev : Event) : bool :=
  match ev with
  | message_from _ _ message =>
      match decode message with
      | inr (k', _) => String.eqb k' k
      | inl _ => false
      end
  | _ => false
  end.

(** The sender and the score of the last message of a run that bears the
    key [k]. *)
Fixpoint last_bearing (k : string) (evs : list Event) : option (Conn * Value) :=
  match evs with
  | [] => None
  | ev :: rest =>
      match last_bearing k rest with
      | Some w => Some w
      | None =>
          match ev with
          | message_from _ connection message =>
              match decode message with
              | inr (k', score) =>
                  if String.eqb k' k then Some (connection, score) else None
              | inl _ => None
              end
          | _ => None
          end
      end
  end.

(** ** The page: [HomePage] under [WsContextProvider] *)

Module HomePage.

(** The two [useState] fields of [HomePage], and the provider whose context
    [useWsContext] hands to it.  [App] renders the page inside the provider,
    so the context is always there. *)
Record Page : Type := {
  name : string;
  score : string;
  ws : WsContext.Provider
}.

Inductive SocketEvent : Type := socket_open | socket_close | socket_error.

Inductive Effect : Type :=
| console_log_socket (e : SocketEvent)   (* 'socket open' / 'socket close' / 'socket error' *)
| in_provider (e : WsContext.Effect).

(** The page after its first render, once the provider's effect has run:
    both inputs empty, no snapshot yet, the socket connecting. *)
Definition mounted : Page :=
  {| name := ""; score := ""; ws := after (WsContext.mount WsContext.initial) |}.

(** A statement of the provider, run from the page. *)
Definition provider {A : Type} (m : M WsContext.Provider WsContext.Effect A)
  : M Page Effect A :=
  fun p =>
    let o := m (ws p) in
    {| after := {| name := name p; score := score p; ws := after o |};
       trace := map in_provider (trace o);
       completion := completion o |}.

(** [onChange] of the Name input: [setName(event.target.value)]. *)
Definition onChange_name (value : string) : M Page Effect unit :=
  modify (fun p => {| name := value; score := score p; ws := ws p |}).

(** [onChange] of the Score input: [setScore(score)] on the local state,
    then [ws.setScore(name, score)] with the text of the input. *)
Definition onChange_score (value : string) : M Page Effect unit :=
  modify (fun p => {| name := name p; score := value; ws := ws p |}) ;;
  name <- gets name ;;
  provider (WsContext.setScore name (JStr value)).

(** [socket.onopen], [socket.onclose] and [socket.onerror]. *)
Definition onopen : M Page Effect unit := emit (console_log_socket socket_open).
Definition onclose : M Page Effect unit := emit (console_log_socket socket_close).
Definition onerror : M Page Effect unit := emit (console_log_socket socket_error).

(** What React accepts as a child of a list item, for a value parsed from
    JSON: a string or a number is text, a boolean or [null] is nothing, an
    array is its items one after the other, and a plain object is refused
    (the render throws). *)
Fixpoint valid_child (j : Json) : bool :=
  match j with
  | JObj _ => false
  | JArr items => forallb valid_child items
  | _ => true
  end.

(** Whether the render of [HomePage] succeeds on the cached snapshot:
    [Object.entries(ws.players)] throws on [null], gives nothing for a number
    or a boolean, the characters of a string, the items of an array, and the
    members of an object; each value is then rendered as [{playerScore}]. *)
Definition renders (players : Json) : bool :=
  match players with
  | JNull => false
  | JArr items => forallb valid_child items
  | JObj members => forallb (fun member => valid_child (snd member)) members
  | _ => true
  end.

(** The render that follows a state update.  When it throws,
    [FatalErrorBoundary], which [App] puts above the provider, shows the error
    page in place of its children: the provider is unmounted and the cleanup
    of its effect closes the socket. *)
Definition rerender : M Page Effect unit :=
  players <- gets (fun p => WsContext.players (ws p)) ;;
  if renders players then ret tt else provider WsContext.cleanup.

(** A handler that updates state: the page is rendered again once the
    handler has returned, or has thrown after its updates. *)
Definition updating (handler : M Page Effect unit) : M Page Effect unit :=
  fun p =>
    let o := handler p in
    let r := rerender (after o) in
    {| after := after r; trace := trace o ++ trace r; completion := completion o |}.

(** What happens to a mounted page: the user types in one of the inputs, or
    the browser runs a task of the socket.  When the connection is
    established the socket becomes open and the open event fires; when it is
    closed the socket becomes closed, the error event fires if the connection
    failed, and the close event fires; a message fires the message event.
    The socket handlers that only log update no state, so no render follows
    them. *)
Inductive Event : Type :=
| name_typed (value : string)
| score_typed (value : string)
| connection_established
| connection_closed (failed : bool)
| message_received (data : Message).

Definition step (ev : Event) : M Page Effect unit :=
  match ev with
  | name_typed value => updating (onChange_name value)
  | score_typed value => updating (onChange_score value)
  | connection_established => provider (WsContext.becomes WsContext.OPEN) ;; onopen
  | connection_closed failed =>
      provider (WsContext.becomes WsContext.CLOSED) ;;
      (if failed then onerror else ret tt) ;;
      onclose
  | message_received data => updating (provider (WsContext.onmessage data))
  end.

(** The event is not a message whose parsed value the page cannot render. *)
Definition renderable (ev : Event) : bool :=
  match ev with
  | message_received (JsonText v) => renders v
  | _ => true
  end.

(** The trace shows the cleanup of the provider's effect. *)
Fixpoint unmounts (t : list Effect) : bool :=
  match t with
  | [] => false
  | in_provider WsContext.closing :: _ => true
  | _ :: rest => unmounts rest
  end.

(** A handler that runs once the provider is unmounted: React drops the
    state updates of a component that is no longer mounted. *)
Definition dropped_updates (handler : M Page Effect unit) : M Page Effect unit :=
  fun p =>
    let o := handler p in
    {| after := p; trace := trace o; completion := completion o |}.

(** What happens once the error page has replaced the provider.  The inputs
    are gone, so nothing is typed.  The handlers of the socket are closures
    held by the socket, and still run: a message is logged and parsed, and
    its [setPlayers] is dropped; the close of the socket is logged.
    [socket.close()] has been called, so the socket does not open. *)
Definition after_unmount (ev : Event) : M Page Effect unit :=
  match ev with
  | name_typed _ | score_typed _ => ret tt
  | connection_established => ret tt
  | connection_closed failed =>
      provider (WsContext.becomes WsContext.CLOSED) ;;
      (if failed then onerror else ret tt) ;;
      onclose
  | message_received data => dropped_updates (provider (WsContext.onmessage data))
  end.

Fixpoint run_after_unmount (evs : list Event) (p : Page) : Page * list Effect :=
  match evs with
  | [] => (p, [])
  | ev :: rest =>
      let o := after_unmount ev p in
      let (p', t) := run_after_unmount rest (after o) in
      (p', trace o ++ t)
  end.

(** One handler after the other; an exception that leaves a handler does
    not undo the state updates made before it, and the next event is handled
    as usual.  When the render after an event throws, the page is unmounted
    and the rest of the run is that of an unmounted page. *)
Fixpoint run (evs : list Event) (p : Page) : Page * list Effect :=
  match evs with
  | [] => (p, [])
  | ev :: rest =>
      let o := step ev p in
      if unmounts (trace o)
      then let (p', t) := run_after_unmount rest (after o) in (p', trace o ++ t)
      else let (p', t) := run rest (after o) in (p', trace o ++ t)
  end.

(** The frames a trace transmits. *)
Fixpoint transmissions (t : list Effect) : list Json :=
  match t with
  | [] => []
  | in_provider (WsContext.transmitted text) :: rest => text :: transmissions rest
  | _ :: rest => transmissions rest
  end.

(** The value of the last message of a run that parses. *)
Fixpoint last_parsed (evs : list Event) : option Json :=
  match evs with
  | [] => None
  | ev :: rest =>
      match last_parsed rest with
      | Some v => Some v
      | None =>
          match ev with
          | message_received (JsonText v) => Some v
          | _ => None
          end
      end
  end.

(** The text typed last into the Name input. *)
Fixpoint last_name (evs : list Event) : option string :=
  match evs with
  | [] => None
  | ev :: rest =>
      match last_name rest with
      | Some n => Some n
      | None =>
          match ev with
          | name_typed n => Some n
          | _ => None
          end
      end
  end.

Definition is_open (p : Page) : bool :=
  match WsContext.ws_current (ws p) with
  | Some WsContext.OPEN => true
  | _ => false
  end.

Definition opens (ev : Event) : bool :=
  match ev with
  | connection_established => true
  | _ => false
  end.

End HomePage.

(** * Theorems *)

(** ** Property lists *)

Section PropsFacts.
Context {V : Type}.
Implicit Types (k : string) (v : V) (ps : list (string * V)).

Lemma has_own_In k ps : has_own k ps = true <-> In k (Object_keys ps).
Proof.
  unfold has_own. induction ps as [|[k' v'] ps IH]; simpl.
  - split; [discriminate | tauto].
  - destruct (String.eqb_spec k k') as [->|Hne].
    + split; auto.
    + rewrite IH. split; [auto | intros [E|H]; [congruence | exact H]].
Qed.

Lemma has_own_false k ps : has_own k ps = false <-> ~ In k (Object_keys ps).
Proof.
  rewrite <- has_own_In. destruct (has_own k ps); split; congruence.
Qed.

Lemma Object_keys_update k v ps : Object_keys (update k v ps) = Object_keys ps.
Proof.
  induction ps as [|[k' v'] ps IH]; simpl; [reflexivity|].
  destruct (String.eqb k k'); simpl; [reflexivity | now rewrite IH].
Qed.

Lemma get_own_update_same k v ps :
  has_own k ps = true -> get_own k (update k v ps) = Some v.
Proof.
  unfold has_own. induction ps as [|[k' v'] ps IH]; simpl; [discriminate|].
  destruct (String.eqb k k') eqn:E; simpl; rewrite E; auto.
Qed.

Lemma get_own_update_other k k0 v ps :
  k0 <> k -> get_own k0 (update k v ps) = get_own k0 ps.
Proof.
  intros Hne. induction ps as [|[k' v'] ps IH]; simpl; [reflexivity|].
  destruct (String.eqb_spec k k') as [->|Hk]; simpl.
  - destruct (String.eqb_spec k0 k'); [congruence | reflexivity].
  - now rewrite IH.
Qed.

Lemma In_values_update h k v ps :
  In h (Object_values (update k v ps)) -> h = v \/ In h (Object_values ps).
Proof.
  induction ps as [|[k' v'] ps IH]; simpl; [tauto|].
  destruct (String.eqb k k'); simpl; intuition.
Qed.

Lemma Object_keys_create k v ps :
  forall k0, In k0 (Object_keys (create k v ps)) <-> k0 = k \/ In k0 (Object_keys ps).
Proof.
  induction ps as [|[k' v'] ps IH]; simpl; intros k0.
  - intuition.
  - destruct (comes_before k k'); simpl; [intuition|].
    rewrite IH. intuition.
Qed.

Lemma NoDup_create k v ps :
  has_own k ps = false -> NoDup (Object_keys ps) -> NoDup (Object_keys (create k v ps)).
Proof.
  rewrite has_own_false.
  induction ps as [|[k' v'] ps IH]; simpl; intros Hk Hnd.
  - constructor; [tauto | constructor].
  - destruct (comes_before k k'); simpl.
    + constructor; [exact Hk | exact Hnd].
    + inversion Hnd as [|? ? Hk' Hps]; subst.
      constructor.
      * rewrite Object_keys_create. intros [->|H]; tauto.
      * apply IH; tauto.
Qed.

Lemma get_own_create_same k v ps :
  has_own k ps = false -> get_own k (create k v ps) = Some v.
Proof.
  unfold has_own. induction ps as [|[k' v'] ps IH]; simpl.
  - now rewrite String.eqb_refl.
  - destruct (String.eqb k k') eqn:E; [discriminate|]. intros H.
    destruct (comes_before k k'); simpl.
    + now rewrite String.eqb_refl.
    + rewrite E. auto.
Qed.

Lemma get_own_create_other k k0 v ps :
  k0 <> k -> get_own k0 (create k v ps) = get_own k0 ps.
Proof.
  intros Hne. induction ps as [|[k' v'] ps IH]; simpl.
  - destruct (String.eqb_spec k0 k); [congruence | reflexivity].
  - destruct (comes_before k k'); simpl.
    + destruct (String.eqb_spec k0 k); [congruence | reflexivity].
    + now rewrite IH.
Qed.

Lemma In_values_create h k v ps :
  In h (Object_values (create k v ps)) <-> h = v \/ In h (Object_values ps).
Proof.
  induction ps as [|[k' v'] ps IH]; simpl.
  - intuition.
  - destruct (comes_before k k'); simpl; [intuition|].
    rewrite IH. intuition.
Qed.

(** With distinct keys, a key holds at most one value. *)
Lemma NoDup_keys_functional ps k v1 v2 :
  NoDup (Object_keys ps) -> In (k, v1) ps -> In (k, v2) ps -> v1 = v2.
Proof.
  induction ps as [|[k' v'] ps IH]; simpl; [tauto|].
  intros Hnd H1 H2. inversion Hnd as [|? ? Hk' Hps]; subst.
  destruct H1 as [E1|H1], H2 as [E2|H2].
  - congruence.
  - inversion E1; subst. exfalso. apply Hk'.
    change (In (fst (k, v2)) (map fst ps)). now apply in_map.
  - inversion E2; subst. exfalso. apply Hk'.
    change (In (fst (k, v1)) (map fst ps)). now apply in_map.
  - auto.
Qed.

Lemma get_own_In k v ps : get_own k ps = Some v -> In (k, v) ps.
Proof.
  induction ps as [|[k' v'] ps IH]; simpl; [discriminate|].
  destruct (String.eqb_spec k k') as [->|Hne]; [intros [= ->]; auto | auto].
Qed.

Lemma get_own_value k v ps : get_own k ps = Some v -> In v (Object_values ps).
Proof.
  intros H. apply get_own_In in H.
  change (In (snd (k, v)) (map snd ps)). now apply in_map.
Qed.

End PropsFacts.

(** ** The two assignments *)

Ltac js_unfold :=
  unfold bind, gets, modify, ret, throw, lift, emit, try_catch,
    with_wsConnections, with_wsConnections_proto, with_players, with_players_proto;
  cbn [after trace completion wsConnections wsConnections_proto players players_proto app].

Ltac js_cases :=
  repeat match goal with
    | |- context [if ?b then _ else _] => destruct b eqn:?; js_unfold
    | |- context [match ?x with None => _ | Some _ => _ end] => destruct x eqn:?; js_unfold
    | |- context [match ?x with Unclaimed => _ | Dropped => _ | Rejected => _ end] =>
        destruct x eqn:?; js_unfold
    end.

(** The registration touches [wsConnections] only, leaves no trace, and
    either completes or is rejected before anything is written. *)
Lemma assign_wsConnections_frame env k c st :
  let o := assign_wsConnections env k c st in
  trace o = [] /\ players (after o) = players st /\
  players_proto (after o) = players_proto st /\
  (completion o = inr tt \/ (completion o = inl TypeError /\ after o = st)).
Proof.
  unfold assign_wsConnections. js_unfold. js_cases; auto 10.
Qed.

Lemma assign_wsConnections_keys env k c st :
  NoDup (Object_keys (wsConnections st)) ->
  NoDup (Object_keys (wsConnections (after (assign_wsConnections env k c st)))).
Proof.
  unfold assign_wsConnections. js_unfold. js_cases; auto;
    try (rewrite Object_keys_update; auto); apply NoDup_create; auto.
Qed.

Lemma assign_wsConnections_values env k c st h :
  In h (Object_values (wsConnections (after (assign_wsConnections env k c st)))) ->
  h = c \/ In h (Object_values (wsConnections st)).
Proof.
  unfold assign_wsConnections. js_unfold. js_cases; auto;
    try apply In_values_update; apply In_values_create.
Qed.

(** An identifier that is registered is given the new handle; no other
    entry moves. *)
Lemma assign_wsConnections_own env k c st :
  has_own k (wsConnections st) = true ->
  let o := assign_wsConnections env k c st in
  completion o = inr tt /\
  get_own k (wsConnections (after o)) = Some c /\
  Object_keys (wsConnections (after o)) = Object_keys (wsConnections st) /\
  (forall k0, k0 <> k -> get_own k0 (wsConnections (after o)) = get_own k0 (wsConnections st)).
Proof.
  intros H. unfold assign_wsConnections. js_unfold. rewrite H. js_unfold.
  repeat split.
  - now apply get_own_update_same.
  - apply Object_keys_update.
  - intros k0 Hne. now apply get_own_update_other.
Qed.

(** On a registry whose prototype is still [Object.prototype], every
    identifier but [__proto__] ends up registered to the sender. *)
Lemma assign_wsConnections_plain env k c st :
  wsConnections_proto st = None -> is_proto_key k = false ->
  let o := assign_wsConnections env k c st in
  completion o = inr tt /\
  wsConnections_proto (after o) = None /\
  get_own k (wsConnections (after o)) = Some c /\
  (forall k0, k0 <> k -> get_own k0 (wsConnections (after o)) = get_own k0 (wsConnections st)).
Proof.
  intros Hp Hk. unfold assign_wsConnections. js_unfold.
  js_cases; try congruence; repeat split; auto.
  - now apply get_own_update_same.
  - intros k0 Hne. now apply get_own_update_other.
  - now apply get_own_create_same.
  - intros k0 Hne. now apply get_own_create_other.
Qed.

(** The score assignment touches [players] only, leaves no trace and always
    completes. *)
Lemma assign_players_frame k score st :
  let o := assign_players k score st in
  trace o = [] /\ completion o = inr tt /\
  wsConnections (after o) = wsConnections st /\
  wsConnections_proto (after o) = wsConnections_proto st.
Proof.
  unfold assign_players. js_unfold. js_cases; auto.
Qed.

Lemma assign_players_keys k score st :
  NoDup (Object_keys (players st)) ->
  NoDup (Object_keys (players (after (assign_players k score st)))).
Proof.
  unfold assign_players. js_unfold. js_cases; auto;
    try (rewrite Object_keys_update; auto); apply NoDup_create; auto.
Qed.

Lemma assign_players_own k score st :
  has_own k (players st) = true ->
  let o := assign_players k score st in
  get_own k (players (after o)) = Some score /\
  Object_keys (players (after o)) = Object_keys (players st) /\
  (forall k0, k0 <> k -> get_own k0 (players (after o)) = get_own k0 (players st)).
Proof.
  intros H. unfold assign_players. js_unfold. rewrite H. js_unfold.
  repeat split.
  - now apply get_own_update_same.
  - apply Object_keys_update.
  - intros k0 Hne. now apply get_own_update_other.
Qed.

Lemma assign_players_plain k score st :
  is_proto_key k = false ->
  let o := assign_players k score st in
  players_proto (after o) = players_proto st /\
  get_own k (players (after o)) = Some score /\
  (forall k0, k0 <> k -> get_own k0 (players (after o)) = get_own k0 (players st)).
Proof.
  intros Hk. unfold assign_players. js_unfold.
  js_cases; rewrite ?Hk in *; try discriminate; repeat split; auto.
  - now apply get_own_update_same.
  - intros k0 Hne. now apply get_own_update_other.
  - now apply get_own_create_same.
  - intros k0 Hne. now apply get_own_create_other.
Qed.

(** ** The broadcast loop *)

Lemma outcome_eta {S E A : Type} (o : Outcome S E A) :
  {| after := after o; trace := trace o; completion := completion o |} = o.
Proof. destruct o; reflexivity. Qed.

Lemma bind_lift_inr {S E A B : Type} (a : A) (f : A -> M S E B) st :
  bind (lift (inr a)) f st = f a st.
Proof. unfold bind, lift, ret; cbn. apply outcome_eta. Qed.

Lemma bind_completes {S E A B : Type} (m : M S E A) (f : A -> M S E B) st a :
  completion (m st) = inr a ->
  bind m f st =
  {| after := after (f a (after (m st)));
     trace := trace (m st) ++ trace (f a (after (m st)));
     completion := completion (f a (after (m st))) |}.
Proof. intros H. unfold bind. now rewrite H. Qed.

Lemma bind_raises {S E A B : Type} (m : M S E A) (f : A -> M S E B) st e :
  completion (m st) = inl e ->
  bind m f st =
  {| after := after (m st); trace := trace (m st); completion := inl e |}.
Proof. intros H. unfold bind. now rewrite H. Qed.

(** The loop sends the same text, the snapshot of [players], to the handles
    before the first one whose send raises, and changes no state. *)
Lemma forEach_send env values st :
  let o := forEach values (fun wsConnection =>
             text <- gets (fun st => JSON_stringify (players st)) ;;
             send env wsConnection text) st in
  after o = st /\
  trace o = map (fun h => socket_send h (JSON_stringify (players st))) (delivered env values) /\
  completion o = if existsb (send_raises env) values then inl SendError else inr tt.
Proof.
  set (callback := fun wsConnection : Conn => _).
  assert (Hcb : forall h s,
             after (callback h s) = s /\
             trace (callback h s) =
               (if send_raises env h then []
                else [socket_send h (JSON_stringify (players s))]) /\
             completion (callback h s) =
               (if send_raises env h then inl SendError else inr tt)).
  { intros h s. unfold callback, bind, gets, send. cbn.
    destruct (send_raises env h); cbn; auto. }
  clearbody callback.
  induction values as [|h rest IH]; cbn [forEach delivered existsb map].
  - cbn. auto.
  - destruct (Hcb h st) as (Ha & Ht & Hc).
    destruct (send_raises env h); cbn [orb map].
    + rewrite (bind_raises _ _ _ _ Hc). cbn [after trace completion]. auto.
    + rewrite (bind_completes _ _ _ _ Hc). cbn [after trace completion].
      rewrite Ha, Ht. destruct IH as (Ha' & Ht' & Hc'). rewrite Ha', Ht', Hc'.
      cbn [app]. auto.
Qed.

Lemma broadcast_outcome env st :
  let o := broadcast env st in
  let values := Object_values (wsConnections st) in
  after o = st /\
  trace o = map (fun h => socket_send h (JSON_stringify (players st))) (delivered env values) /\
  completion o = if existsb (send_raises env) values then inl SendError else inr tt.
Proof.
  unfold broadcast.
  rewrite (bind_completes (gets (fun st => Object_values (wsConnections st)))
             _ st _ eq_refl).
  cbn [gets after trace completion app].
  apply forEach_send.
Qed.

(** ** The message handler *)

(** On an update, the [try] block is the two assignments and the broadcast. *)
Lemma relay_update env c m id score st :
  as_update m = Some (id, score) ->
  relay env c m st =
  (assign_wsConnections env id c ;;
   assign_players id (Of score) ;;
   broadcast env) st.
Proof.
  intros H. destruct m as [text|v]; [discriminate|].
  destruct v as [| | | | |members]; try discriminate.
  cbn [as_update] in H.
  destruct (get_own "playerId" members) as [[| | |s| |]|] eqn:Hid; try discriminate.
  destruct (get_own "score" members) as [score'|] eqn:Hs; [|discriminate].
  injection H as -> ->.
  unfold relay. cbn [JSON_parse]. rewrite bind_lift_inr.
  cbn [read]. rewrite Hid, Hs. rewrite bind_lift_inr.
  cbn [ToPropertyKey ToString]. rewrite bind_lift_inr.
  destruct (completion (assign_wsConnections env id c st)) as [e|[]] eqn:Hc.
  - now rewrite !(bind_raises _ _ _ _ Hc).
  - rewrite !(bind_completes _ _ _ _ Hc). cbn beta.
    rewrite !bind_lift_inr. cbn [ToPropertyKey ToString].
    rewrite !bind_lift_inr. reflexivity.
Qed.

(** The handler around its [try] block: the first log line, the trace of the
    block, and the two lines of the [catch] block when the block raised. *)
Lemma on_message_unfold env c m st :
  on_message env c m st =
  let r := relay env c m st in
  {| after := after r;
     trace := console_log (ws_message m) :: trace r
              ++ match completion r with
                 | inl e => failure_lines m e
                 | inr _ => []
                 end;
     completion := inr tt |}.
Proof.
  unfold on_message.
  rewrite (bind_completes (emit (console_log (ws_message m))) _ st tt eq_refl).
  cbn [emit after trace completion app]. unfold try_catch.
  destruct (completion (relay env c m st)) as [e|[]] eqn:Hc; cbn zeta.
  - cbn. reflexivity.
  - rewrite Hc, app_nil_r. reflexivity.
Qed.

(** What the handler does with an update whose registration completes. *)
Lemma on_message_update env c m id score st :
  as_update m = Some (id, score) ->
  completion (assign_wsConnections env id c st) = inr tt ->
  let st' := after (assign_players id (Of score)
                      (after (assign_wsConnections env id c st))) in
  let values := Object_values (wsConnections st') in
  let o := on_message env c m st in
  after o = st' /\
  trace o = console_log (ws_message m)
            :: map (fun h => socket_send h (JSON_stringify (players st')))
                 (delivered env values)
            ++ (if existsb (send_raises env) values
                then failure_lines m SendError else []) /\
  completion (relay env c m st) =
    (if existsb (send_raises env) values then inl SendError else inr tt).
Proof.
  intros Hu Hreg st' values o.
  assert (Hrelay : relay env c m st = broadcast env st' /\
                   trace (relay env c m st) = trace (broadcast env st')).
  { rewrite (relay_update _ _ _ _ _ _ Hu).
    rewrite (bind_completes _ _ _ tt Hreg).
    destruct (assign_wsConnections_frame env id c st) as (Ht1 & _).
    destruct (assign_players_frame id (Of score)
                (after (assign_wsConnections env id c st))) as (Ht2 & Hc2 & _).
    cbn zeta in Ht1, Ht2, Hc2.
    rewrite (bind_completes _ _ _ tt Hc2). cbn [after trace completion].
    rewrite Ht1, Ht2. cbn [app]. fold st'. split; [apply outcome_eta|reflexivity]. }
  destruct Hrelay as (Hrelay & _).
  destruct (broadcast_outcome env st') as (Ha & Ht & Hc). cbn zeta in Ha, Ht, Hc.
  fold values in Ht, Hc.
  subst o. rewrite on_message_unfold. cbn zeta. cbn [after trace completion].
  rewrite Hrelay, Hc, Ha, Ht.
  destruct (existsb (send_raises env) values); auto.
Qed.

(** ** Any message *)

Lemma read_total v a b x : read v a = inr x -> exists y, read v b = inr y.
Proof.
  destruct v; cbn; try discriminate; eauto.
  intros _. destruct (get_own b members); eauto.
Qed.

(** The [try] block either raises before it has written anything, or gets
    to the two assignments and the broadcast with the key of [playerId]. *)
Lemma relay_decode env c m st :
  (exists e, relay env c m st = {| after := st; trace := []; completion := inl e |}) \/
  (exists k score, parses m = true /\
     relay env c m st =
     (assign_wsConnections env k c ;; assign_players k score ;; broadcast env) st).
Proof.
  destruct m as [text|v].
  - left. exists SyntaxError. reflexivity.
  - unfold relay. cbn [JSON_parse]. rewrite bind_lift_inr.
    destruct (read v "playerId") as [e|playerId] eqn:Hid.
    + left. exists e. reflexivity.
    + rewrite bind_lift_inr.
      destruct (ToPropertyKey playerId) as [e|k] eqn:Hk.
      * left. exists e. reflexivity.
      * rewrite bind_lift_inr.
        destruct (read_total _ _ "score" _ Hid) as (score & Hs). rewrite Hs.
        right. exists k, score. split; [reflexivity|].
        destruct (completion (assign_wsConnections env k c st)) as [e|[]] eqn:Hc.
        -- now rewrite !(bind_raises _ _ _ _ Hc).
        -- rewrite !(bind_completes _ _ _ _ Hc). cbn beta.
           rewrite !bind_lift_inr. rewrite Hk. rewrite !bind_lift_inr. reflexivity.
Qed.

Lemma chain_rejected env c k score st e :
  completion (assign_wsConnections env k c st) = inl e ->
  (assign_wsConnections env k c ;; assign_players k score ;; broadcast env) st =
  {| after := st; trace := []; completion := inl e |}.
Proof.
  intros Hc. rewrite (bind_raises _ _ _ _ Hc).
  destruct (assign_wsConnections_frame env k c st) as (Ht & _ & _ & [H|(_ & Ha)]).
  - cbn zeta in H. congruence.
  - cbn zeta in Ht, Ha. now rewrite Ht, Ha.
Qed.

Lemma chain_completes env c k score st :
  completion (assign_wsConnections env k c st) = inr tt ->
  (assign_wsConnections env k c ;; assign_players k score ;; broadcast env) st =
  broadcast env (after (assign_players k score (after (assign_wsConnections env k c st)))).
Proof.
  intros Hreg. rewrite (bind_completes _ _ _ tt Hreg).
  destruct (assign_wsConnections_frame env k c st) as (Ht1 & _).
  destruct (assign_players_frame k score
              (after (assign_wsConnections env k c st))) as (Ht2 & Hc2 & _).
  cbn zeta in Ht1, Ht2, Hc2.
  rewrite (bind_completes _ _ _ tt Hc2). cbn [after trace completion].
  rewrite Ht1, Ht2. cbn [app]. apply outcome_eta.
Qed.

Lemma delivered_incl env values h : In h (delivered env values) -> In h values.
Proof.
  induction values as [|x rest IH]; cbn; [tauto|].
  destruct (send_raises env x); cbn; [tauto | intuition].
Qed.

Lemma delivered_all env values :
  existsb (send_raises env) values = false -> delivered env values = values.
Proof.
  induction values as [|x rest IH]; cbn; [reflexivity|].
  destruct (send_raises env x); cbn; [discriminate|]. intros H. now rewrite IH.
Qed.

Lemma sends_app t1 t2 : sends (t1 ++ t2) = sends t1 ++ sends t2.
Proof.
  induction t1 as [|[| |h text] t1 IH]; cbn; auto. now rewrite IH.
Qed.

Lemma sends_map_socket_send text values :
  sends (map (fun h => socket_send h text) values) = map (fun h => (h, text)) values.
Proof.
  induction values as [|x rest IH]; cbn; [reflexivity | now rewrite IH].
Qed.

Lemma In_sends h text t : In (socket_send h text) t <-> In (h, text) (sends t).
Proof.
  induction t as [|[l|l|h' text'] t IH]; cbn; [tauto| | |].
  - rewrite <- IH. split; [intros [H|H]; [discriminate|exact H] | auto].
  - rewrite <- IH. split; [intros [H|H]; [discriminate|exact H] | auto].
  - rewrite <- IH. split; intros [H|H]; auto; left; congruence.
Qed.

(** The sends of the handler, for any message: none when the [try] block
    raises before the broadcast, otherwise the snapshot to the handles the
    loop reaches. *)
Lemma on_message_sends env c m st :
  let o := on_message env c m st in
  sends (trace o) = [] \/
  sends (trace o) =
    map (fun h => (h, JSON_stringify (players (after o))))
      (delivered env (Object_values (wsConnections (after o)))).
Proof.
  cbn zeta. rewrite on_message_unfold. cbn zeta. cbn [after trace].
  destruct (relay_decode env c m st) as [(e & ->)|(k & score & _ & ->)].
  - left. cbn. reflexivity.
  - destruct (completion (assign_wsConnections env k c st)) as [e|[]] eqn:Hc.
    + left. rewrite (chain_rejected _ _ _ _ _ _ Hc). reflexivity.
    + right. rewrite (chain_completes _ _ _ _ _ Hc).
      set (st' := after (assign_players k score (after (assign_wsConnections env k c st)))).
      destruct (broadcast_outcome env st') as (Ha & Ht & Hb). cbn zeta in Ha, Ht, Hb.
      rewrite Ha, Ht, Hb. cbn [sends]. rewrite sends_app, sends_map_socket_send.
      destruct (existsb (send_raises env) (Object_values (wsConnections st')));
        cbn [sends failure_lines]; now rewrite app_nil_r.
Qed.

(** The handler keeps the keys of both objects distinct. *)
Lemma on_message_keys env c m st :
  NoDup (Object_keys (wsConnections st)) /\ NoDup (Object_keys (players st)) ->
  let o := on_message env c m st in
  NoDup (Object_keys (wsConnections (after o))) /\
  NoDup (Object_keys (players (after o))).
Proof.
  intros (Hw & Hp). cbn zeta. rewrite on_message_unfold. cbn zeta. cbn [after].
  destruct (relay_decode env c m st) as [(e & ->)|(k & score & _ & ->)]; [auto|].
  destruct (completion (assign_wsConnections env k c st)) as [e|[]] eqn:Hc.
  - rewrite (chain_rejected _ _ _ _ _ _ Hc). auto.
  - rewrite (chain_completes _ _ _ _ _ Hc).
    destruct (broadcast_outcome env
      (after (assign_players k score (after (assign_wsConnections env k c st)))))
      as (Ha & _). cbn zeta in Ha. rewrite Ha.
    destruct (assign_wsConnections_frame env k c st) as (_ & Hp1 & _).
    destruct (assign_players_frame k score
      (after (assign_wsConnections env k c st))) as (_ & _ & Hw2 & _).
    cbn zeta in Hp1, Hw2. split.
    + rewrite Hw2. now apply assign_wsConnections_keys.
    + apply assign_players_keys. now rewrite Hp1.
Qed.

(** A handle is in the registry after a message only if it was there
    before, or it is the sender and the message parsed. *)
Lemma on_message_values env c m st h :
  In h (Object_values (wsConnections (after (on_message env c m st)))) ->
  (h = c /\ parses m = true) \/ In h (Object_values (wsConnections st)).
Proof.
  rewrite on_message_unfold. cbn zeta. cbn [after].
  destruct (relay_decode env c m st) as [(e & ->)|(k & score & Hp & ->)]; [auto|].
  destruct (completion (assign_wsConnections env k c st)) as [e|[]] eqn:Hc.
  - rewrite (chain_rejected _ _ _ _ _ _ Hc). auto.
  - rewrite (chain_completes _ _ _ _ _ Hc).
    destruct (broadcast_outcome env
      (after (assign_players k score (after (assign_wsConnections env k c st)))))
      as (Ha & _). cbn zeta in Ha. rewrite Ha.
    destruct (assign_players_frame k score
      (after (assign_wsConnections env k c st))) as (_ & _ & Hw2 & _).
    cbn zeta in Hw2. rewrite Hw2. intros H.
    apply assign_wsConnections_values in H. intuition.
Qed.

(** ** Runs *)

Lemma run_cons ev rest st :
  run (ev :: rest) st =
  (fst (run rest (after (step ev st))), trace (step ev st) ++ snd (run rest (after (step ev st)))).
Proof. cbn [run]. destruct (run rest (after (step ev st))); reflexivity. Qed.

Lemma step_keys ev st :
  NoDup (Object_keys (wsConnections st)) /\ NoDup (Object_keys (players st)) ->
  NoDup (Object_keys (wsConnections (after (step ev st)))) /\
  NoDup (Object_keys (players (after (step ev st)))).
Proof.
  destruct ev as [c|env c m|c]; cbn [step]; auto. apply on_message_keys.
Qed.

Lemma run_keys evs : forall st,
  NoDup (Object_keys (wsConnections st)) /\ NoDup (Object_keys (players st)) ->
  NoDup (Object_keys (wsConnections (fst (run evs st)))) /\
  NoDup (Object_keys (players (fst (run evs st)))).
Proof.
  induction evs as [|ev rest IH]; intros st H; [exact H|].
  rewrite run_cons. cbn [fst]. apply IH. now apply step_keys.
Qed.

Lemma initial_keys :
  NoDup (Object_keys (wsConnections initial)) /\ NoDup (Object_keys (players initial)).
Proof. split; constructor. Qed.

Lemma sent_parsed_cons h ev evs : sent_parsed h evs -> sent_parsed h (ev :: evs).
Proof. intros (env & m & H & Hp). exists env, m. split; [now right | exact Hp]. Qed.

Lemma step_values ev st h :
  In h (Object_values (wsConnections (after (step ev st)))) ->
  sent_parsed h [ev] \/ In h (Object_values (wsConnections st)).
Proof.
  destruct ev as [c|env c m|c]; cbn [step]; auto.
  intros H. apply on_message_values in H. destruct H as [(-> & Hp)|H]; [left|now right].
  exists env, m. split; [now left | exact Hp].
Qed.

Lemma step_sends ev st h text :
  In (socket_send h text) (trace (step ev st)) ->
  In h (Object_values (wsConnections (after (step ev st)))).
Proof.
  destruct ev as [c|env c m|c]; cbn [step].
  - cbn. tauto.
  - rewrite In_sends.
    destruct (on_message_sends env c m st) as [H|H]; cbn zeta in H; rewrite H.
    + cbn. tauto.
    + rewrite in_map_iff. intros (x & [= -> _] & Hx). now apply delivered_incl in Hx.
  - cbn. intros [H|[]]. discriminate.
Qed.

Lemma run_values evs : forall st h,
  In h (Object_values (wsConnections (fst (run evs st)))) ->
  sent_parsed h evs \/ In h (Object_values (wsConnections st)).
Proof.
  induction evs as [|ev rest IH]; intros st h; [now right|].
  rewrite run_cons. cbn [fst]. intros H.
  destruct (IH _ _ H) as [Hs|Hin]; [left; now apply sent_parsed_cons|].
  destruct (step_values _ _ _ Hin) as [(env & m & [->|[]] & Hp)|Hst]; [left|now right].
  exists env, m. split; [now left | exact Hp].
Qed.

Lemma run_sends evs : forall st h text,
  In (socket_send h text) (snd (run evs st)) ->
  sent_parsed h evs \/ In h (Object_values (wsConnections st)).
Proof.
  induction evs as [|ev rest IH]; intros st h text; [cbn; tauto|].
  rewrite run_cons. cbn [snd]. rewrite in_app_iff. intros [H|H].
  - apply step_sends in H.
    destruct (step_values _ _ _ H) as [(env & m & [->|[]] & Hp)|Hst]; [left|now right].
    exists env, m. split; [now left | exact Hp].
  - destruct (IH _ _ _ H) as [Hs|Hin]; [left; now apply sent_parsed_cons|].
    destruct (step_values _ _ _ Hin) as [(env & m & [->|[]] & Hp)|Hst]; [left|now right].
    exists env, m. split; [now left | exact Hp].
Qed.

(** ** The scenarios of the specification *)

(** A sends Alice 5, B sends Bob 3, A sends Alice 7: the three broadcasts
    are [{"Alice":5}], [{"Alice":5,"Bob":3}] and [{"Alice":7,"Bob":3}], each
    to every registered connection. *)
Example scenario_alice_bob :
  sends (snd (run [message_from quiet 1 (update_message "Alice" (JNum "5"));
                   message_from quiet 2 (update_message "Bob" (JNum "3"));
                   message_from quiet 1 (update_message "Alice" (JNum "7"))]
                initial)) =
  [(1, JObj [("Alice", JNum "5")]);
   (1, JObj [("Alice", JNum "5"); ("Bob", JNum "3")]);
   (2, JObj [("Alice", JNum "5"); ("Bob", JNum "3")]);
   (1, JObj [("Alice", JNum "7"); ("Bob", JNum "3")]);
   (2, JObj [("Alice", JNum "7"); ("Bob", JNum "3")])].
Proof. reflexivity. Qed.

(** A connection sends [not json]: nothing is broadcast, the stores are
    unchanged, and a valid message from it afterwards is relayed. *)
Example scenario_not_json :
  let o := on_message quiet 2 (NotJson "not json") alice_registered in
  after o = alice_registered /\ sends (trace o) = [] /\
  sends (trace (on_message quiet 2 (update_message "Bob" (JNum "3")) (after o))) =
  [(1, JObj [("Alice", JNum "5"); ("Bob", JNum "3")]);
   (2, JObj [("Alice", JNum "5"); ("Bob", JNum "3")])].
Proof. repeat split. Qed.

(** Keys that are array indices are listed first, in ascending order. *)
Example scenario_numeric_identifiers :
  Object_keys (players (fst (run [message_from quiet 1 (update_message "b" (JNum "1"));
                                  message_from quiet 1 (update_message "10" (JNum "2"));
                                  message_from quiet 1 (update_message "9" (JNum "3"));
                                  message_from quiet 1 (update_message "a" (JNum "4"))]
                               initial))) =
  ["9"; "10"; "b"; "a"].
Proof. reflexivity. Qed.

(** ** Last writer wins *)

Lemma as_update_update_message id score :
  as_update (update_message id score) = Some (id, score).
Proof. reflexivity. Qed.

(** On a server whose two objects still have [Object.prototype], a run of
    updates under identifiers other than [__proto__] leaves every identifier
    with the score of the last update that bears it, whoever sent it and
    whether or not a send failed. *)
Lemma last_writer_wins updates : forall st,
  wsConnections_proto st = None ->
  Forall (fun u => is_proto_key (snd (fst u)) = false) updates ->
  forall id,
    get_own id (players (fst (run (map update_event updates) st))) =
    match last_score id updates with
    | Some score => Some (Of score)
    | None => get_own id (players st)
    end.
Proof.
  induction updates as [|[[[env c] id'] score] rest IH]; intros st Hproto Hall id.
  - reflexivity.
  - inversion Hall as [|? ? Hk Hrest]; subst. cbn [fst snd] in Hk.
    cbn [map update_event]. rewrite run_cons. cbn [fst step last_score].
    destruct (assign_wsConnections_plain env id' c st Hproto Hk) as (Hc & Hp' & _).
    cbn zeta in Hc, Hp'.
    destruct (on_message_update env c _ id' score st
                (as_update_update_message id' score) Hc) as (Ha & _).
    cbn zeta in Ha. rewrite Ha.
    destruct (assign_players_frame id' (Of score)
                (after (assign_wsConnections env id' c st))) as (_ & _ & _ & Hw).
    destruct (assign_players_plain id' (Of score)
                (after (assign_wsConnections env id' c st)) Hk) as (_ & Hsame & Hother).
    destruct (assign_wsConnections_frame env id' c st) as (_ & Hpl & _).
    cbn zeta in Hw, Hsame, Hother, Hpl.
    rewrite IH; [|congruence|exact Hrest].
    destruct (last_score id rest); [reflexivity|].
    destruct (String.eqb_spec id id') as [->|Hne]; [exact Hsame|].
    now rewrite (Hother _ Hne), Hpl.
Qed.

(** C1 (the code departs from it): an update whose identifier is the
    string [__proto__] is the last (and only) message bearing that
    identifier, yet [players] does not map it to its score afterwards: the
    assignment [players["__proto__"] = 5] runs the inherited accessor, which
    ignores a number, and no property is stored. *)
Theorem proto_identifier_is_not_stored :
  let updates := [(quiet, 1, "__proto__", JNum "5")] in
  let st := fst (run (map update_event updates) initial) in
  last_score "__proto__" updates = Some (JNum "5") /\
  get_own "__proto__" (players st) = None /\
  players st = [].
Proof. cbn zeta. repeat split. Qed.

(** ** One snapshot per registration *)

Lemma sends_to_map h text values :
  map snd (filter (fun s : Conn * Json => Nat.eqb (fst s) h)
             (map (fun x => (x, text)) values)) =
  repeat text (count_occ Nat.eq_dec values h).
Proof.
  induction values as [|x rest IH]; cbn [map filter count_occ repeat fst]; [reflexivity|].
  destruct (Nat.eq_dec x h) as [->|Hne].
  - rewrite Nat.eqb_refl. cbn [map repeat snd]. now rewrite IH.
  - destruct (Nat.eqb_spec x h); [contradiction | exact IH].
Qed.

(** When the [try] block of an update completes, the registration completed
    and no send raised. *)
Lemma relay_completes env c m id score st :
  as_update m = Some (id, score) ->
  completion (relay env c m st) = inr tt ->
  completion (assign_wsConnections env id c st) = inr tt /\
  existsb (send_raises env) (Object_values (wsConnections (after (on_message env c m st)))) = false.
Proof.
  intros Hu Hr.
  destruct (completion (assign_wsConnections env id c st)) as [e|[]] eqn:Hc.
  - rewrite (relay_update _ _ _ _ _ _ Hu), (chain_rejected _ _ _ _ _ _ Hc) in Hr.
    discriminate.
  - split; [reflexivity|].
    destruct (on_message_update env c m id score st Hu Hc) as (Ha & _ & Hcomp).
    cbn zeta in Ha, Hcomp. rewrite Ha. rewrite Hr in Hcomp.
    destruct (existsb _ _); [discriminate | reflexivity].
Qed.

(** C2 (as written, refuted), three ways.  Connection 1 has registered
    as Alice.  (a) It sends an update as Bob: it is then stored under two
    identifiers, and the loop over [Object.values(wsConnections)] sends it the
    snapshot twice.  (b) Connection 2 sends an update as Bob while sends to
    handle 1 raise: the loop ends at handle 1 and handle 2, registered once,
    is sent nothing.  (c) Connection 2 sends an update under the identifier
    [__proto__]: its handle becomes the prototype of [wsConnections], not an
    entry, and it is sent nothing. *)
Lemma one_snapshot_each_fails :
  ~ one_snapshot_each quiet 1 (update_message "Bob" (JNum "3")) alice_registered /\
  ~ one_snapshot_each first_handle_dead 2 (update_message "Bob" (JNum "3")) alice_registered /\
  ~ one_snapshot_each quiet 2 (update_message "__proto__" (JNum "3")) alice_registered.
Proof.
  unfold one_snapshot_each. repeat split.
  - intros (_ & H). specialize (H 1).
    vm_compute in H. specialize (H (or_introl eq_refl)). discriminate.
  - intros (_ & H). specialize (H 2).
    vm_compute in H. specialize (H (or_intror (or_introl eq_refl))). discriminate.
  - intros (H & _). vm_compute in H. destruct H as [H|[]]. discriminate.
Qed.

(** C2 (amended): after an update whose [try] block completes (so no send
    raised), the state is the one the two assignments left, and every handle
    is sent the snapshot of [players] in that state once for each identifier
    it is registered under, and nothing else: exactly once when it is
    registered under one identifier, never when under none.  The sender is
    among them whenever the identifier is not [__proto__] and the registry
    still has [Object.prototype]. *)
Theorem snapshot_once_per_registration env c m id score st :
  as_update m = Some (id, score) ->
  completion (relay env c m st) = inr tt ->
  let o := on_message env c m st in
  after o = after (assign_players id (Of score) (after (assign_wsConnections env id c st))) /\
  (forall h, sends_to h (trace o) =
             repeat (JSON_stringify (players (after o)))
               (registrations h (wsConnections (after o)))) /\
  (is_proto_key id = false -> wsConnections_proto st = None ->
   get_own id (wsConnections (after o)) = Some c /\
   1 <= registrations c (wsConnections (after o))).
Proof.
  intros Hu Hr o.
  destruct (relay_completes _ _ _ _ _ _ Hu Hr) as (Hc & Hex). fold o in Hex.
  destruct (on_message_update env c m id score st Hu Hc) as (Ha & Ht & _).
  cbn zeta in Ha, Ht. fold o in Ha, Ht. rewrite <- Ha in Ht.
  rewrite Hex, (delivered_all _ _ Hex), app_nil_r in Ht.
  split; [exact Ha|]. split.
  - intros h. unfold sends_to, registrations. rewrite Ht. cbn [sends].
    rewrite sends_map_socket_send. apply sends_to_map.
  - intros Hk Hp.
    destruct (assign_wsConnections_plain env id c st Hp Hk) as (_ & _ & Hget & _).
    destruct (assign_players_frame id (Of score)
                (after (assign_wsConnections env id c st))) as (_ & _ & Hw & _).
    cbn zeta in Hget, Hw.
    assert (Hg : get_own id (wsConnections (after o)) = Some c)
      by (rewrite Ha, Hw; exact Hget).
    split; [exact Hg|].
    unfold registrations. apply get_own_value in Hg.
    apply (count_occ_In Nat.eq_dec) in Hg. lia.
Qed.

Lemma snapshot_once_per_registration_witness :
  let c := 1 in
  let m := update_message "Bob" (JNum "3") in
  let st := alice_registered in
  as_update m = Some ("Bob", JNum "3") /\
  completion (relay quiet c m st) = inr tt /\
  let o := on_message quiet c m st in
  after o = after (assign_players "Bob" (Of (JNum "3"))
                     (after (assign_wsConnections quiet "Bob" c st))) /\
  (forall h, sends_to h (trace o) =
             repeat (JSON_stringify (players (after o)))
               (registrations h (wsConnections (after o)))) /\
  (is_proto_key "Bob" = false -> wsConnections_proto st = None ->
   get_own "Bob" (wsConnections (after o)) = Some c /\
   1 <= registrations c (wsConnections (after o))).
Proof.
  split; [reflexivity|]. split; [reflexivity|].
  apply (snapshot_once_per_registration quiet 1 (update_message "Bob" (JNum "3"))
           "Bob" (JNum "3") alice_registered); reflexivity.
Defined.

(** ** Messages that do not parse *)

(** C3 (as written, refuted): the text [{"playerId":"Alice"}] has no
    [score], yet it is not dropped: [JSON.parse] accepts it, the sender is
    registered as Alice, [players.Alice] is set to [undefined], and the
    snapshot [{}] is sent to the sender; nothing is logged as a failure. *)
Lemma message_without_score_is_relayed :
  let m := JsonText (JObj [("playerId", JStr "Alice")]) in
  misses_a_field m = true /\ ~ logged_and_dropped quiet 1 m initial.
Proof.
  split; [reflexivity|]. unfold logged_and_dropped. intros (H & _). discriminate.
Qed.

(** C3 (amended): a message that is not valid JSON is logged as a failure
    and dropped.  The handler writes its three console lines and nothing
    else: both objects and their prototypes are as before, nothing is sent to
    any connection and no socket is closed.  (A text that is valid JSON but
    lacks [playerId] or [score] is not a parse failure for the code.) *)
Theorem unparseable_message_is_dropped env c text st :
  let m := NotJson text in
  let o := on_message env c m st in
  logged_and_dropped env c m st /\
  trace o = [console_log (ws_message m);
             console_error (could_not_parse m);
             console_error (error_object SyntaxError)] /\
  completion o = inr tt.
Proof.
  cbn zeta. unfold logged_and_dropped. rewrite on_message_unfold. cbn.
  repeat split; auto.
Qed.

(** [null] is valid JSON, but reading [playerId] from it throws: it is
    dropped in the same way. *)
Lemma null_message_is_dropped env c st :
  let m := JsonText JNull in
  let o := on_message env c m st in
  after o = st /\
  trace o = console_log (ws_message m) :: failure_lines m TypeError.
Proof. cbn zeta. rewrite on_message_unfold. cbn. auto. Qed.

(** ** No unhandled exception *)

Lemma on_message_completes env c m st : completion (on_message env c m st) = inr tt.
Proof. now rewrite on_message_unfold. Qed.

(** Every event of a run is handled to completion. *)
Lemma step_never_raises ev st : completion (step ev st) = inr tt.
Proof.
  destruct ev as [c|env c m|c]; cbn [step]; try reflexivity.
  apply on_message_completes.
Qed.

(** C4: whatever the message, the state, and the behaviour of the library
    (a send that raises included), the ['message'] handler completes
    normally; and when its [try] block raised, the exception was caught and
    the two lines of the [catch] block were written. *)
Theorem handler_never_raises env c m st :
  let o := on_message env c m st in
  completion o = inr tt /\
  match completion (relay env c m st) with
  | inr _ => True
  | inl e => incl (failure_lines m e) (trace o)
  end.
Proof.
  cbn zeta. rewrite on_message_unfold. cbn zeta. cbn [completion trace].
  split; [reflexivity|].
  destruct (completion (relay env c m st)) as [e|]; [|exact I].
  intros x Hx. right. apply in_or_app. now right.
Qed.

(** ** One handle and one score per identifier *)

(** C6: in every state a run of events reaches, the keys of [wsConnections]
    are distinct and so are the keys of [players]: an identifier has at most
    one handle and at most one score.  An update for an identifier that both
    objects hold puts the sender's handle and the new score in the place of
    the old ones: the keys and their order are unchanged, and so is the entry
    of every other identifier. *)
Theorem one_handle_and_one_score_per_identifier evs :
  let st := fst (run evs initial) in
  NoDup (Object_keys (wsConnections st)) /\
  NoDup (Object_keys (players st)) /\
  (forall k h1 h2, In (k, h1) (wsConnections st) -> In (k, h2) (wsConnections st) -> h1 = h2) /\
  (forall k s1 s2, In (k, s1) (players st) -> In (k, s2) (players st) -> s1 = s2) /\
  (forall env c m id score,
     as_update m = Some (id, score) ->
     has_own id (wsConnections st) = true -> has_own id (players st) = true ->
     let st' := after (on_message env c m st) in
     get_own id (wsConnections st') = Some c /\
     get_own id (players st') = Some (Of score) /\
     Object_keys (wsConnections st') = Object_keys (wsConnections st) /\
     Object_keys (players st') = Object_keys (players st) /\
     (forall k, k <> id ->
        get_own k (wsConnections st') = get_own k (wsConnections st) /\
        get_own k (players st') = get_own k (players st))).
Proof.
  cbn zeta. destruct (run_keys evs initial initial_keys) as (Hw & Hp).
  split; [exact Hw|]. split; [exact Hp|].
  split; [intros k h1 h2; now apply NoDup_keys_functional|].
  split; [intros k s1 s2; now apply NoDup_keys_functional|].
  set (st := fst (run evs initial)). intros env c m id score Hu Hown Hpown.
  destruct (assign_wsConnections_own env id c st Hown) as (Hc & Hget & Hkeys & Hother).
  cbn zeta in Hc, Hget, Hkeys, Hother.
  destruct (on_message_update env c m id score st Hu Hc) as (Ha & _).
  cbn zeta in Ha. rewrite Ha.
  destruct (assign_wsConnections_frame env id c st) as (_ & Hpl & _).
  cbn zeta in Hpl.
  assert (Hpown' : has_own id (players (after (assign_wsConnections env id c st))) = true)
    by now rewrite Hpl.
  destruct (assign_players_own id (Of score) _ Hpown') as (Hpget & Hpkeys & Hpother).
  destruct (assign_players_frame id (Of score)
              (after (assign_wsConnections env id c st))) as (_ & _ & Hw2 & _).
  cbn zeta in Hpget, Hpkeys, Hpother, Hw2. rewrite Hw2.
  repeat split; auto.
  - now rewrite Hpkeys, Hpl.
  - rewrite (Hpother _ H). now rewrite Hpl.
Qed.

Lemma one_handle_and_one_score_per_identifier_witness :
  let st := fst (run [message_from quiet 1 (update_message "Alice" (JNum "5"))] initial) in
  let m := update_message "Alice" (JNum "7") in
  as_update m = Some ("Alice", JNum "7") /\
  has_own "Alice" (wsConnections st) = true /\
  has_own "Alice" (players st) = true /\
  let st' := after (on_message quiet 2 m st) in
  get_own "Alice" (wsConnections st') = Some 2 /\
  get_own "Alice" (players st') = Some (Of (JNum "7")) /\
  Object_keys (wsConnections st') = Object_keys (wsConnections st) /\
  Object_keys (players st') = Object_keys (players st) /\
  (forall k, k <> "Alice" ->
     get_own k (wsConnections st') = get_own k (wsConnections st) /\
     get_own k (players st') = get_own k (players st)).
Proof.
  split; [reflexivity|]. split; [reflexivity|]. split; [reflexivity|].
  destruct (one_handle_and_one_score_per_identifier
              [message_from quiet 1 (update_message "Alice" (JNum "5"))])
    as (_ & _ & _ & _ & H).
  apply (H quiet 2 (update_message "Alice" (JNum "7")) "Alice" (JNum "7"));
    reflexivity.
Defined.

(** ** Closing a connection *)

(** C9: the ['close'] handler writes its log line and nothing else: the
    server state, that is both objects with all their entries, and their
    prototypes, is the same after as before. *)
Theorem close_only_logs connection st :
  let o := on_close connection st in
  after o = st /\
  wsConnections (after o) = wsConnections st /\
  players (after o) = players st /\
  trace o = [console_log client_disconnected] /\
  completion o = inr tt.
Proof. cbn. auto. Qed.

(** ** Who is sent a broadcast *)

Lemma In_recipients h t : In h (recipients t) <-> exists text, In (socket_send h text) t.
Proof.
  unfold recipients. rewrite in_map_iff. split.
  - intros ([h' text] & <- & H). exists text. now apply In_sends.
  - intros (text & H). exists (h, text). split; [reflexivity | now apply In_sends].
Qed.

(** When the [try] block completes, the loop reached every registered
    handle. *)
Lemma on_message_complete_sends env c m st :
  completion (relay env c m st) = inr tt ->
  let o := on_message env c m st in
  sends (trace o) =
    map (fun h => (h, JSON_stringify (players (after o))))
      (Object_values (wsConnections (after o))).
Proof.
  intros Hr. cbn zeta. rewrite on_message_unfold. cbn zeta. cbn [after trace].
  rewrite Hr, app_nil_r. cbn [sends]. revert Hr.
  destruct (relay_decode env c m st) as [(e & ->)|(k & score & _ & ->)]; [discriminate|].
  destruct (completion (assign_wsConnections env k c st)) as [e|[]] eqn:Hc.
  - rewrite (chain_rejected _ _ _ _ _ _ Hc). discriminate.
  - rewrite (chain_completes _ _ _ _ _ Hc).
    set (st' := after (assign_players k score (after (assign_wsConnections env k c st)))).
    destruct (broadcast_outcome env st') as (Ha & Ht & Hb). cbn zeta in Ha, Ht, Hb.
    rewrite Ha, Ht, Hb.
    destruct (existsb (send_raises env) (Object_values (wsConnections st'))) eqn:Hex;
      [discriminate|]. intros _.
    now rewrite sends_map_socket_send, (delivered_all _ _ Hex).
Qed.

(** C10 (as written, refuted), two ways.  (a) Connection 1 sends [{}],
    which is no valid update: it is registered under the key ["undefined"]
    all the same and is sent the broadcast.  (b) In the reachable state where
    connection 1 is registered as Alice, connection 2 sends an update as Bob
    while sends to handle 1 raise: the registry then holds handles 1 and 2,
    but the broadcast has no recipient at all, so the recipients are not
    exactly the registered handles. *)
Lemma recipients_are_not_the_registry :
  ~ silent_until_valid [message_from quiet 1 (JsonText (JObj []))] /\
  reachable alice_registered /\
  ~ recipients_are_registry first_handle_dead 2 (update_message "Bob" (JNum "3"))
      alice_registered.
Proof.
  split; [|split].
  - unfold silent_until_valid. intros H. apply (H 1).
    + intros env m [[= _ <-]|[]]. reflexivity.
    + vm_compute. now left.
  - exists [message_from quiet 1 (update_message "Alice" (JNum "5"))]. reflexivity.
  - unfold recipients_are_registry. intros H. specialize (H 2).
    vm_compute in H. destruct H as (_ & H). apply H. right. now left.
Qed.

(** C10 (amended): in every run from the initial state, a message is sent
    only to a connection that has itself sent a message which [JSON.parse]
    accepted, and only such connections are in the registry; so a connection
    that never sent one is never sent a broadcast.  For each message handled
    in a reachable state the recipients are among the handles in the
    registry, and they are all of them when the [try] block completes, that
    is when no send raises. *)
Theorem broadcast_only_to_registered_senders evs :
  let st := fst (run evs initial) in
  (forall h text, In (socket_send h text) (snd (run evs initial)) -> sent_parsed h evs) /\
  (forall h, In h (Object_values (wsConnections st)) -> sent_parsed h evs) /\
  (forall env c m,
     let o := on_message env c m st in
     (forall h, In h (recipients (trace o)) ->
                In h (Object_values (wsConnections (after o)))) /\
     (completion (relay env c m st) = inr tt ->
      forall h, In h (recipients (trace o)) <->
                In h (Object_values (wsConnections (after o))))).
Proof.
  cbn zeta. split; [|split].
  - intros h text H. destruct (run_sends _ _ _ _ H) as [Hs|[]]. exact Hs.
  - intros h H. destruct (run_values _ _ _ H) as [Hs|[]]. exact Hs.
  - intros env c m. set (st := fst (run evs initial)).
    assert (Hsub : forall h,
               In h (recipients (trace (on_message env c m st))) ->
               In h (Object_values (wsConnections (after (on_message env c m st))))).
    { intros h Hh. apply In_recipients in Hh. destruct Hh as (text & Hh).
      apply (step_sends (message_from env c m) st h text Hh). }
    split; [exact Hsub|]. intros Hr h. split; [apply Hsub|].
    intros Hh. unfold recipients.
    rewrite (on_message_complete_sends _ _ _ _ Hr), map_map. cbn [fst].
    now rewrite map_id.
Qed.

Lemma broadcast_only_to_registered_senders_witness :
  let evs := [message_from quiet 1 (update_message "Alice" (JNum "5"))] in
  let st := fst (run evs initial) in
  let m := update_message "Bob" (JNum "3") in
  completion (relay quiet 2 m st) = inr tt /\
  forall h, In h (recipients (trace (on_message quiet 2 m st))) <->
            In h (Object_values (wsConnections (after (on_message quiet 2 m st)))).
Proof.
  split; [reflexivity|].
  destruct (broadcast_only_to_registered_senders
              [message_from quiet 1 (update_message "Alice" (JNum "5"))])
    as (_ & _ & H).
  destruct (H quiet 2 (update_message "Bob" (JNum "3"))) as (_ & Hall).
  apply Hall. reflexivity.
Defined.

(** ** A send that fails *)




(** ** The client *)

(** C7: [socket.onmessage] with a text that parses replaces the cached
    [players] by the parsed value, whatever was cached, and touches nothing
    else; with a text that does not parse it logs the error and leaves the
    provider's state as it was.  Neither case raises. *)
Theorem onmessage_replaces_or_keeps (st : WsContext.Provider) :
  (forall v,
     let o := WsContext.onmessage (JsonText v) st in
     WsContext.players (after o) = v /\
     WsContext.ws_current (after o) = WsContext.ws_current st /\
     trace o = [WsContext.console_log_onmessage (JsonText v)] /\
     completion o = inr tt) /\
  (forall text,
     let o := WsContext.onmessage (NotJson text) st in
     after o = st /\
     trace o = [WsContext.console_log_onmessage (NotJson text);
                WsContext.console_error_parse SyntaxError] /\
     completion o = inr tt).
Proof. split; intros; cbn; auto. Qed.

(** C8 (the code departs from it): while the socket is still connecting,
    [ws.current] is set, so the optional chaining does not skip the call, and
    the browser's [send] throws: [setScore] raises [InvalidStateError]
    instead of doing nothing.  This is the state the provider is in right
    after its effect has run. *)
Theorem setScore_while_connecting_raises playerId score cached :
  let st := {| WsContext.players := cached; WsContext.ws_current := Some WsContext.CONNECTING |} in
  after (WsContext.mount WsContext.initial) =
    {| WsContext.players := JObj []; WsContext.ws_current := Some WsContext.CONNECTING |} /\
  completion (WsContext.setScore playerId score st) = inl InvalidStateError.
Proof. cbn. auto. Qed.

(** In the other states that are not open, [setScore] is the silent no-op
    the specification describes: before the effect has set [ws.current], and
    once the socket is closing or closed. *)
Lemma setScore_without_open_socket playerId score cached current :
  current = None \/ current = Some WsContext.CLOSING \/ current = Some WsContext.CLOSED ->
  let st := {| WsContext.players := cached; WsContext.ws_current := current |} in
  WsContext.setScore playerId score st =
  {| after := st; trace := []; completion := inr tt |}.
Proof. intros [->|[->| ->]]; reflexivity. Qed.

(** After the cleanup the socket is closing: an update is discarded. *)
Lemma setScore_after_cleanup playerId score :
  let st := after (WsContext.cleanup
                     (after (WsContext.becomes WsContext.OPEN
                               (after (WsContext.mount WsContext.initial))))) in
  WsContext.setScore playerId score st =
  {| after := st; trace := []; completion := inr tt |}.
Proof. reflexivity. Qed.

(** While the socket is open, the update is transmitted. *)
Lemma setScore_open playerId score cached :
  let st := {| WsContext.players := cached; WsContext.ws_current := Some WsContext.OPEN |} in
  WsContext.setScore playerId score st =
  {| after := st;
     trace := [WsContext.transmitted
                 (JObj [("playerId", JStr playerId); ("score", rewritten score)])];
     completion := inr tt |}.
Proof. reflexivity. Qed.

(** * More of the server *)

(** ** The state a message leaves *)

Lemma relay_decoded env c m st :
  relay env c m st =
  match decode m with
  | inl e => throw e st
  | inr (k, score) =>
      (assign_wsConnections env k c ;; assign_players k score ;; broadcast env) st
  end.
Proof.
  unfold decode. destruct m as [text|v]; [reflexivity|].
  unfold relay. cbn [JSON_parse sequence]. rewrite bind_lift_inr.
  destruct (read v "playerId") as [e|playerId] eqn:Hid; [reflexivity|].
  rewrite bind_lift_inr. cbn [sequence].
  destruct (ToPropertyKey playerId) as [e|k] eqn:Hk; [reflexivity|].
  rewrite bind_lift_inr. cbn [sequence].
  destruct (read_total _ _ "score" _ Hid) as (score & Hs). rewrite Hs. cbn [sequence].
  destruct (completion (assign_wsConnections env k c st)) as [e|[]] eqn:Hc.
  - now rewrite !(bind_raises _ _ _ _ Hc).
  - rewrite !(bind_completes _ _ _ _ Hc). cbn beta.
    rewrite !bind_lift_inr. rewrite Hk. rewrite !bind_lift_inr. reflexivity.
Qed.

(** The state after the handler: unchanged when the message does not decode
    or the registration is rejected, otherwise what the two assignments
    leave. *)
Lemma on_message_after env c m st :
  after (on_message env c m st) =
  match decode m with
  | inl _ => st
  | inr (k, score) =>
      match completion (assign_wsConnections env k c st) with
      | inl _ => st
      | inr _ => after (assign_players k score (after (assign_wsConnections env k c st)))
      end
  end.
Proof.
  rewrite on_message_unfold. cbn zeta. cbn [after]. rewrite relay_decoded.
  destruct (decode m) as [e|[k score]]; [reflexivity|].
  destruct (completion (assign_wsConnections env k c st)) as [e|[]] eqn:Hc.
  - now rewrite (chain_rejected _ _ _ _ _ _ Hc).
  - rewrite (chain_completes _ _ _ _ _ Hc).
    now destruct (broadcast_outcome env
      (after (assign_players k score (after (assign_wsConnections env k c st))))) as (-> & _).
Qed.

Section MoreProps.
Context {V : Type}.
Implicit Types (k : string) (v : V) (ps : list (string * V)).

Lemma has_own_keys {W : Type} k ps (qs : list (string * W)) :
  Object_keys ps = Object_keys qs -> has_own k ps = has_own k qs.
Proof.
  intros H.
  destruct (has_own k ps) eqn:Hp.
  - symmetry. apply has_own_In. rewrite <- H. now apply has_own_In.
  - symmetry. apply has_own_false. rewrite <- H. now apply has_own_false.
Qed.

Lemma has_own_update k k0 v ps : has_own k0 (update k v ps) = has_own k0 ps.
Proof. apply has_own_keys, Object_keys_update. Qed.

Lemma has_own_create_same k v ps : has_own k (create k v ps) = true.
Proof. apply has_own_In, Object_keys_create. now left. Qed.

Lemma has_own_create_keeps k k0 v ps :
  has_own k0 ps = true -> has_own k0 (create k v ps) = true.
Proof.
  intros H. apply has_own_In, Object_keys_create. right. now apply has_own_In.
Qed.

Lemma update_same k v ps : get_own k ps = Some v -> update k v ps = ps.
Proof.
  induction ps as [|[k' v'] ps IH]; cbn; [reflexivity|].
  destruct (String.eqb k k'); [intros [= ->]; reflexivity | intros H; now rewrite IH].
Qed.

Lemma Object_keys_create_keys {W : Type} k v (w : W) ps (qs : list (string * W)) :
  Object_keys ps = Object_keys qs ->
  Object_keys (create k v ps) = Object_keys (create k w qs).
Proof.
  unfold Object_keys.
  revert qs. induction ps as [|[k1 v1] ps IH]; intros [|[k2 w2] qs]; cbn;
    try discriminate; [reflexivity|].
  intros [= <- H]. destruct (comes_before k k1); cbn; [now rewrite H|].
  now rewrite (IH qs H).
Qed.

End MoreProps.

(** On a registry that still has [Object.prototype], and for a key other
    than [__proto__], the two assignments are plain writes. *)
Lemma assign_wsConnections_plain_eq env k c st :
  wsConnections_proto st = None -> is_proto_key k = false ->
  assign_wsConnections env k c st =
  {| after := with_wsConnections
                (if has_own k (wsConnections st)
                 then update k c (wsConnections st)
                 else create k c (wsConnections st)) st;
     trace := [];
     completion := inr tt |}.
Proof.
  intros Hp Hk. unfold assign_wsConnections. js_unfold.
  destruct (has_own k (wsConnections st)); js_unfold; [reflexivity|].
  rewrite Hk. js_unfold.
  destruct (wsConnections_proto st) eqn:E; [discriminate|].
  js_unfold. now rewrite E.
Qed.

Lemma assign_players_plain_eq k score st :
  is_proto_key k = false ->
  assign_players k score st =
  {| after := with_players
                (if has_own k (players st)
                 then update k score (players st)
                 else create k score (players st)) st;
     trace := [];
     completion := inr tt |}.
Proof.
  intros Hk. unfold assign_players. js_unfold.
  destruct (has_own k (players st)); js_unfold; [reflexivity|].
  rewrite Hk. reflexivity.
Qed.

(** Neither assignment removes a key. *)
Lemma assign_wsConnections_keeps env k c st k0 :
  has_own k0 (wsConnections st) = true ->
  has_own k0 (wsConnections (after (assign_wsConnections env k c st))) = true.
Proof.
  intros H. unfold assign_wsConnections. js_unfold. js_cases; auto.
  - now rewrite has_own_update.
  - now apply has_own_create_keeps.
  - now apply has_own_create_keeps.
Qed.

Lemma assign_players_keeps k score st k0 :
  has_own k0 (players st) = true ->
  has_own k0 (players (after (assign_players k score st))) = true.
Proof.
  intros H. unfold assign_players. js_unfold. js_cases; auto.
  - now rewrite has_own_update.
  - now apply has_own_create_keeps.
Qed.

(** A key the registration adds is the key written, and is not [__proto__]. *)
Lemma assign_wsConnections_adds env k c st k0 :
  has_own k0 (wsConnections (after (assign_wsConnections env k c st))) = true ->
  has_own k0 (wsConnections st) = true \/ (k0 = k /\ is_proto_key k = false).
Proof.
  unfold assign_wsConnections. js_unfold. js_cases; auto.
  - rewrite has_own_update. auto.
  - rewrite !has_own_In, Object_keys_create. intros [->|H]; auto.
  - rewrite !has_own_In, Object_keys_create. intros [->|H]; auto.
Qed.

(** The score assignment leaves the key written in [players], unless the key
    is [__proto__]. *)
Lemma assign_players_has k score st :
  is_proto_key k = false ->
  has_own k (players (after (assign_players k score st))) = true.
Proof.
  intros Hk. rewrite (assign_players_plain_eq _ _ _ Hk).
  cbn [after with_players players].
  destruct (has_own k (players st)) eqn:H.
  - now rewrite has_own_update.
  - apply has_own_create_same.
Qed.

(** ** Runs, again *)

Lemma run_preserves (P : Server -> Prop) :
  (forall ev st, P st -> P (after (step ev st))) ->
  forall evs st, P st -> P (fst (run evs st)).
Proof.
  intros Hstep. induction evs as [|ev rest IH]; intros st H; [exact H|].
  rewrite run_cons. cbn [fst]. apply IH, Hstep, H.
Qed.

Lemma run_app evs1 evs2 st :
  run (evs1 ++ evs2) st =
  (fst (run evs2 (fst (run evs1 st))), snd (run evs1 st) ++ snd (run evs2 (fst (run evs1 st)))).
Proof.
  revert st. induction evs1 as [|ev rest IH]; intros st.
  - cbn [app run fst snd]. now destruct (run evs2 st).
  - cbn [app]. rewrite !run_cons, IH. cbn [fst snd]. now rewrite app_assoc.
Qed.

Lemma reachable_step ev st : reachable st -> reachable (after (step ev st)).
Proof.
  intros (evs & <-). exists (evs ++ [ev]). rewrite run_app. cbn [fst].
  rewrite run_cons. reflexivity.
Qed.

Lemma step_after ev st :
  after (step ev st) =
  match ev with
  | message_from env c m => after (on_message env c m st)
  | _ => st
  end.
Proof. destruct ev; reflexivity. Qed.

Lemma on_message_keeps env c m st k0 :
  (has_own k0 (wsConnections st) = true ->
   has_own k0 (wsConnections (after (on_message env c m st))) = true) /\
  (has_own k0 (players st) = true ->
   has_own k0 (players (after (on_message env c m st))) = true).
Proof.
  rewrite on_message_after.
  destruct (decode m) as [e|[k score]]; [auto|].
  destruct (completion (assign_wsConnections env k c st)); [auto|].
  destruct (assign_wsConnections_frame env k c st) as (_ & Hpl & _).
  destruct (assign_players_frame k score
              (after (assign_wsConnections env k c st))) as (_ & _ & Hw & _).
  cbn zeta in Hpl, Hw. split; intros H.
  - rewrite Hw. now apply assign_wsConnections_keeps.
  - apply assign_players_keeps. now rewrite Hpl.
Qed.

(** ** Nothing is ever removed *)

(** X1: no event removes an identifier.  Whatever events follow (messages of
    any kind from any connection, connections opening and closing), every
    key of [wsConnections] is still a key afterwards, and so is every key of
    [players]. *)
Theorem identifiers_are_never_removed evs st :
  incl (Object_keys (wsConnections st)) (Object_keys (wsConnections (fst (run evs st)))) /\
  incl (Object_keys (players st)) (Object_keys (players (fst (run evs st)))).
Proof.
  apply (run_preserves (fun st' =>
    incl (Object_keys (wsConnections st)) (Object_keys (wsConnections st')) /\
    incl (Object_keys (players st)) (Object_keys (players st')))).
  - intros ev st' (Hw & Hp). rewrite step_after.
    destruct ev as [c|env c m|c]; [auto| |auto].
    split; intros k Hk.
    + apply has_own_In, on_message_keeps, has_own_In, Hw, Hk.
    + apply has_own_In, on_message_keeps, has_own_In, Hp, Hk.
  - split; apply incl_refl.
Qed.

(** ** The two objects side by side *)

(** X2: in every state a run reaches from the start, every identifier that
    has a connection in [wsConnections] also has an entry in [players], and
    [__proto__] is never a key of [wsConnections]. *)
Theorem registered_identifiers_have_an_entry evs :
  let st := fst (run evs initial) in
  incl (Object_keys (wsConnections st)) (Object_keys (players st)) /\
  ~ In "__proto__" (Object_keys (wsConnections st)).
Proof.
  cbn zeta.
  apply (run_preserves (fun st =>
    incl (Object_keys (wsConnections st)) (Object_keys (players st)) /\
    ~ In "__proto__" (Object_keys (wsConnections st)))).
  - intros ev st (Hincl & Hproto). rewrite step_after.
    destruct ev as [c|env c m|c]; [auto| |auto].
    rewrite on_message_after.
    destruct (decode m) as [e|[k score]]; [auto|].
    destruct (completion (assign_wsConnections env k c st)); [auto|].
    destruct (assign_wsConnections_frame env k c st) as (_ & Hpl & _).
    destruct (assign_players_frame k score
                (after (assign_wsConnections env k c st))) as (_ & _ & Hw & _).
    cbn zeta in Hpl, Hw. rewrite Hw. split.
    + intros k0 Hk0. apply has_own_In in Hk0. apply has_own_In.
      destruct (assign_wsConnections_adds _ _ _ _ _ Hk0) as [Hold|(-> & Hk)].
      * apply assign_players_keeps. rewrite Hpl.
        apply has_own_In, Hincl, has_own_In, Hold.
      * now apply assign_players_has.
    + intros Hin. apply has_own_In in Hin.
      destruct (assign_wsConnections_adds _ _ _ _ _ Hin) as [Hold|(<- & Hk)].
      * apply Hproto, has_own_In, Hold.
      * discriminate Hk.
  - split; [apply incl_refl | intros []].
Qed.

Lemma bears_proto_decode env c m k score :
  bears "__proto__" (message_from env c m) = false ->
  decode m = inr (k, score) -> is_proto_key k = false.
Proof. cbn [bears]. intros H Hd. rewrite Hd in H. exact H. Qed.

(** X3: as long as no message has borne the identifier [__proto__], the two
    objects list the same identifiers in the same order (so the n-th handle
    of [Object.values(wsConnections)] belongs to the n-th identifier of
    [players]), and both still have [Object.prototype]. *)
Theorem registry_and_store_list_the_same_identifiers evs :
  Forall (fun ev => bears "__proto__" ev = false) evs ->
  let st := fst (run evs initial) in
  Object_keys (wsConnections st) = Object_keys (players st) /\
  wsConnections_proto st = None /\
  players_proto st = Object_prototype.
Proof.
  intros Hall. cbn zeta.
  assert (Hgen : forall st,
    Object_keys (wsConnections st) = Object_keys (players st) /\
    wsConnections_proto st = None /\ players_proto st = Object_prototype ->
    Object_keys (wsConnections (fst (run evs st))) = Object_keys (players (fst (run evs st))) /\
    wsConnections_proto (fst (run evs st)) = None /\
    players_proto (fst (run evs st)) = Object_prototype).
  { induction Hall as [|ev rest Hev Hrest IH]; intros st H; [exact H|].
    rewrite run_cons. cbn [fst]. apply IH. rewrite step_after.
    destruct ev as [c|env c m|c]; [exact H| |exact H].
    destruct H as (Hkeys & Hwp & Hpp). rewrite on_message_after.
    destruct (decode m) as [e|[k score]] eqn:Hd; [auto|].
    pose proof (bears_proto_decode _ _ _ _ _ Hev Hd) as Hk.
    rewrite (assign_wsConnections_plain_eq _ _ _ _ Hwp Hk). cbn [completion after].
    rewrite (assign_players_plain_eq _ _ _ Hk).
    cbn [after with_players with_wsConnections wsConnections wsConnections_proto
         players players_proto].
    rewrite (has_own_keys k _ _ Hkeys). repeat split; auto.
    destruct (has_own k (players st)).
    - now rewrite !Object_keys_update.
    - now apply Object_keys_create_keys. }
  apply Hgen. repeat split.
Qed.

Lemma registry_and_store_list_the_same_identifiers_witness :
  let evs := [message_from quiet 1 (update_message "Bob" (JNum "3"));
              closed 1;
              message_from quiet 2 (update_message "7" (JStr "x"))] in
  Forall (fun ev => bears "__proto__" ev = false) evs /\
  let st := fst (run evs initial) in
  Object_keys (wsConnections st) = Object_keys (players st) /\
  wsConnections_proto st = None /\
  players_proto st = Object_prototype.
Proof.
  split; [repeat constructor|].
  apply (registry_and_store_list_the_same_identifiers
           [message_from quiet 1 (update_message "Bob" (JNum "3"));
            closed 1;
            message_from quiet 2 (update_message "7" (JStr "x"))]).
  repeat constructor.
Defined.

(** ** What is broadcast *)

Lemma entries_keys_In k ps : In k (Object_keys (entries ps)) -> In k (Object_keys ps).
Proof.
  induction ps as [|[k' [|j]] ps IH]; cbn; [tauto| |]; intuition.
Qed.


Lemma get_own_entries_value k j ps :
  get_own k ps = Some (Of j) -> get_own k (entries ps) = Some (rewritten j).
Proof.
  induction ps as [|[k' [|j']] ps IH]; cbn; [discriminate| |].
  - destruct (String.eqb k k'); [discriminate | exact IH].
  - destruct (String.eqb k k'); [intros [= ->]; reflexivity | exact IH].
Qed.

Lemma get_own_entries_none k ps :
  NoDup (Object_keys ps) ->
  get_own k ps = Some undefined \/ get_own k ps = None ->
  get_own k (entries ps) = None.
Proof.
  induction ps as [|[k' [|j']] ps IH]; cbn; intros Hnd H; [reflexivity| |];
    inversion Hnd as [|? ? Hk Hps]; subst.
  - destruct (String.eqb_spec k k') as [->|Hne]; [|auto].
    destruct (get_own k' (entries ps)) eqn:E; [|reflexivity].
    exfalso. apply Hk, entries_keys_In.
    apply get_own_In in E. change (In (fst (k', j)) (map fst (entries ps))).
    now apply in_map.
  - destruct (String.eqb k k'); [destruct H; discriminate | auto].
Qed.

Lemma reachable_keys st :
  reachable st ->
  NoDup (Object_keys (wsConnections st)) /\ NoDup (Object_keys (players st)).
Proof. intros (evs & <-). apply run_keys, initial_keys. Qed.


(** ** Messages that do not decode *)

Lemma as_update_decode m id score :
  as_update m = Some (id, score) -> decode m = inr (id, Of score).
Proof.
  destruct m as [text|[| | | | |members]]; try discriminate. cbn [as_update].
  destruct (get_own "playerId" members) as [[| | |s| |]|] eqn:Hid; try discriminate.
  destruct (get_own "score" members) as [score'|] eqn:Hs; [|discriminate].
  intros [= -> ->]. unfold decode. cbn [JSON_parse sequence read].
  now rewrite Hid, Hs.
Qed.

(** X6: a message from which the [try] block cannot get a key is dropped,
    whatever the exception: text that is not JSON, [null], or a [playerId]
    that does not convert to a property key (an object with a member named
    [toString], alone or inside an array).  The state is unchanged, nothing
    is sent, and the handler writes its log line and the two lines of the
    [catch] block with that exception. *)
Theorem undecodable_message_is_dropped env c m e st :
  decode m = inl e ->
  on_message env c m st =
  {| after := st;
     trace := console_log (ws_message m) :: failure_lines m e;
     completion := inr tt |}.
Proof.
  intros Hd. rewrite on_message_unfold. cbn zeta. rewrite relay_decoded, Hd.
  reflexivity.
Qed.

Lemma undecodable_message_is_dropped_witness :
  let m := JsonText (JObj [("playerId", JArr [JStr "a"; JObj [("toString", JNum "1")]]);
                           ("score", JNum "5")]) in
  decode m = inl TypeError /\
  on_message first_handle_dead 2 m alice_registered =
  {| after := alice_registered;
     trace := console_log (ws_message m) :: failure_lines m TypeError;
     completion := inr tt |}.
Proof.
  split; [reflexivity|].
  apply (undecodable_message_is_dropped first_handle_dead 2 _ TypeError alice_registered).
  reflexivity.
Defined.

(** ** The identifier is the key *)

(** X7: the handler sees of a [playerId] only the property key it converts
    to.  Two messages that decode to the same key and score (the number [1]
    and the string ["1"], or [null] and the string ["null"], as [playerId])
    leave the same state and cause the same sends. *)
Theorem same_key_same_player env c m1 m2 st :
  decode m1 = decode m2 ->
  after (on_message env c m1 st) = after (on_message env c m2 st) /\
  sends (trace (on_message env c m1 st)) = sends (trace (on_message env c m2 st)).
Proof.
  intros Hd.
  assert (Hr : relay env c m1 st = relay env c m2 st)
    by now rewrite !relay_decoded, Hd.
  rewrite !on_message_unfold. cbn zeta. cbn [after trace sends].
  rewrite !sends_app, Hr. split; [reflexivity|]. f_equal.
  destruct (completion (relay env c m2 st)); reflexivity.
Qed.

Lemma same_key_same_player_witness :
  let m1 := JsonText (JObj [("playerId", JNum "1"); ("score", JStr "x")]) in
  let m2 := update_message "1" (JStr "x") in
  decode m1 = decode m2 /\
  after (on_message quiet 2 m1 alice_registered) =
    after (on_message quiet 2 m2 alice_registered) /\
  sends (trace (on_message quiet 2 m1 alice_registered)) =
    sends (trace (on_message quiet 2 m2 alice_registered)).
Proof.
  split; [reflexivity|].
  apply (same_key_same_player quiet 2
           (JsonText (JObj [("playerId", JNum "1"); ("score", JStr "x")]))
           (update_message "1" (JStr "x")) alice_registered).
  reflexivity.
Defined.

(** ** Failing sends and the stores *)

Lemma assign_wsConnections_env env1 env2 k c st :
  stream_chain env1 k = stream_chain env2 k ->
  assign_wsConnections env1 k c st = assign_wsConnections env2 k c st.
Proof. intros H. unfold assign_wsConnections. now rewrite H. Qed.

(** X8: whether sends raise has no influence on the stores.  Two libraries
    that differ only in which sends raise leave the same state after any
    message: a failed broadcast neither loses nor undoes the update. *)
Theorem send_failures_do_not_touch_the_stores env1 env2 c m st :
  (forall k, stream_chain env1 k = stream_chain env2 k) ->
  after (on_message env1 c m st) = after (on_message env2 c m st).
Proof.
  intros H. rewrite !on_message_after.
  destruct (decode m) as [e|[k score]]; [reflexivity|].
  now rewrite (assign_wsConnections_env env1 env2 k c st (H k)).
Qed.

Lemma send_failures_do_not_touch_the_stores_witness :
  (forall k, stream_chain quiet k = stream_chain first_handle_dead k) /\
  after (on_message quiet 2 (update_message "Bob" (JNum "3")) alice_registered) =
  after (on_message first_handle_dead 2 (update_message "Bob" (JNum "3")) alice_registered).
Proof.
  split; [reflexivity|].
  apply (send_failures_do_not_touch_the_stores quiet first_handle_dead). reflexivity.
Defined.

(** ** The same update twice *)

Lemma server_eta st :
  {| wsConnections := wsConnections st;
     wsConnections_proto := wsConnections_proto st;
     players := players st;
     players_proto := players_proto st |} = st.
Proof. destruct st; reflexivity. Qed.

(** Once a registration has completed, the same registration on a state with
    the registry it left changes nothing. *)
Lemma assign_wsConnections_again env k c st st' :
  is_proto_key k = false ->
  completion (assign_wsConnections env k c st) = inr tt ->
  wsConnections st' = wsConnections (after (assign_wsConnections env k c st)) ->
  wsConnections_proto st' = wsConnections_proto (after (assign_wsConnections env k c st)) ->
  assign_wsConnections env k c st' = {| after := st'; trace := []; completion := inr tt |}.
Proof.
  intros Hk.
  assert (Hstored : get_own k (wsConnections st') = Some c ->
            assign_wsConnections env k c st' =
            {| after := st'; trace := []; completion := inr tt |}).
  { intros Hget. unfold assign_wsConnections. js_unfold.
    unfold has_own. rewrite Hget. js_unfold.
    rewrite (update_same _ _ _ Hget). now rewrite server_eta. }
  unfold assign_wsConnections at 1 2 3. js_unfold.
  destruct (has_own k (wsConnections st)) eqn:Hown; js_unfold.
  - intros _ Hw _. apply Hstored. rewrite Hw. now apply get_own_update_same.
  - rewrite Hk. js_unfold.
    destruct (wsConnections_proto st) as [p|] eqn:Hp; js_unfold.
    + destruct (stream_chain env k) eqn:Hs; js_unfold; [| |discriminate].
      * intros _ Hw _. apply Hstored. rewrite Hw. now apply get_own_create_same.
      * intros _ Hw Hp'. unfold assign_wsConnections. js_unfold.
        rewrite Hw, Hown. js_unfold. rewrite Hk. js_unfold.
        rewrite Hp', Hp. js_unfold. rewrite Hs. reflexivity.
    + intros _ Hw _. apply Hstored. rewrite Hw. now apply get_own_create_same.
Qed.

Lemma assign_players_again k score st st' :
  is_proto_key k = false ->
  players st' = players (after (assign_players k score st)) ->
  assign_players k score st' = {| after := st'; trace := []; completion := inr tt |}.
Proof.
  intros Hk. rewrite !(assign_players_plain_eq _ _ _ Hk).
  cbn [after with_players players]. intros Hp. f_equal.
  assert (Hget : get_own k (players st') = Some score).
  { rewrite Hp. destruct (has_own k (players st)) eqn:Hown.
    - now apply get_own_update_same.
    - now apply get_own_create_same. }
  assert (Hown' : has_own k (players st') = true)
    by (unfold has_own; now rewrite Hget).
  rewrite Hown', (update_same _ _ _ Hget). unfold with_players. apply server_eta.
Qed.

(** X9: handling the same message again changes no state.  For a message
    that decodes to a key other than [__proto__], the state after two
    deliveries in a row from the same connection is the state after one. *)
Theorem same_message_twice_changes_nothing env env' c m k score st :
  decode m = inr (k, score) -> is_proto_key k = false ->
  stream_chain env' k = stream_chain env k ->
  after (on_message env' c m (after (on_message env c m st))) =
  after (on_message env c m st).
Proof.
  intros Hd Hk Henv. rewrite !on_message_after, Hd.
  rewrite (assign_wsConnections_env env' env k c _ Henv).
  destruct (completion (assign_wsConnections env k c st)) as [e|[]] eqn:Hc.
  - now rewrite Hc.
  - set (st1 := after (assign_wsConnections env k c st)).
    set (st2 := after (assign_players k score st1)).
    destruct (assign_players_frame k score st1) as (_ & _ & Hw & Hwp).
    cbn zeta in Hw, Hwp. fold st2 in Hw, Hwp.
    rewrite (assign_wsConnections_again env k c st st2 Hk Hc Hw Hwp).
    cbn [completion after].
    now rewrite (assign_players_again k score st1 st2 Hk eq_refl).
Qed.

Lemma same_message_twice_changes_nothing_witness :
  let m := update_message "Bob" (JNum "3") in
  decode m = inr ("Bob", Of (JNum "3")) /\
  is_proto_key "Bob" = false /\
  stream_chain first_handle_dead "Bob" = stream_chain quiet "Bob" /\
  after (on_message first_handle_dead 2 m (after (on_message quiet 2 m alice_registered))) =
  after (on_message quiet 2 m alice_registered).
Proof.
  split; [reflexivity|]. split; [reflexivity|]. split; [reflexivity|].
  apply (same_message_twice_changes_nothing quiet first_handle_dead 2
           (update_message "Bob" (JNum "3")) "Bob" (Of (JNum "3")) alice_registered);
    reflexivity.
Defined.

(** ** Entries of other identifiers *)

Lemma assign_wsConnections_other env k c st k0 :
  k0 <> k ->
  get_own k0 (wsConnections (after (assign_wsConnections env k c st))) =
  get_own k0 (wsConnections st).
Proof.
  intros Hne. unfold assign_wsConnections. js_unfold. js_cases; auto.
  - now apply get_own_update_other.
  - now apply get_own_create_other.
  - now apply get_own_create_other.
Qed.

Lemma assign_players_other k score st k0 :
  k0 <> k ->
  get_own k0 (players (after (assign_players k score st))) = get_own k0 (players st).
Proof.
  intros Hne. unfold assign_players. js_unfold. js_cases; auto.
  - now apply get_own_update_other.
  - now apply get_own_create_other.
Qed.

Lemma on_message_other env c m st k0 :
  bears k0 (message_from env c m) = false ->
  get_own k0 (wsConnections (after (on_message env c m st))) = get_own k0 (wsConnections st) /\
  get_own k0 (players (after (on_message env c m st))) = get_own k0 (players st).
Proof.
  cbn [bears]. rewrite on_message_after.
  destruct (decode m) as [e|[k score]]; [auto|]. intros Hb.
  assert (Hne : k0 <> k).
  { intros ->. now rewrite String.eqb_refl in Hb. }
  destruct (completion (assign_wsConnections env k c st)); [auto|].
  destruct (assign_wsConnections_frame env k c st) as (_ & Hpl & _).
  destruct (assign_players_frame k score
              (after (assign_wsConnections env k c st))) as (_ & _ & Hw & _).
  cbn zeta in Hpl, Hw. split.
  - rewrite Hw. now apply assign_wsConnections_other.
  - rewrite (assign_players_other _ _ _ _ Hne). now rewrite Hpl.
Qed.

(** X10: the entries of an identifier change only through a message that
    bears it.  Over any run in which no message decodes to the key [k]
    (other players' updates, malformed messages, connections opening and
    closing, the closing of the very connection registered under [k]
    included), [wsConnections[k]] and [players[k]] stay what they were. *)
Theorem entries_change_only_by_their_identifier evs k st :
  Forall (fun ev => bears k ev = false) evs ->
  get_own k (wsConnections (fst (run evs st))) = get_own k (wsConnections st) /\
  get_own k (players (fst (run evs st))) = get_own k (players st).
Proof.
  intros Hall. revert st. induction Hall as [|ev rest Hev Hrest IH]; intros st; [auto|].
  rewrite run_cons. cbn [fst]. destruct (IH (after (step ev st))) as (-> & ->).
  rewrite step_after. destruct ev as [c|env c m|c]; [auto| |auto].
  now apply on_message_other.
Qed.

Lemma entries_change_only_by_their_identifier_witness :
  let evs := [message_from quiet 2 (update_message "Bob" (JNum "3"));
              closed 1;
              message_from quiet 3 (NotJson "Alice");
              message_from first_handle_dead 2 (update_message "Bob" (JNum "4"))] in
  Forall (fun ev => bears "Alice" ev = false) evs /\
  get_own "Alice" (wsConnections (fst (run evs alice_registered))) =
    get_own "Alice" (wsConnections alice_registered) /\
  get_own "Alice" (players (fst (run evs alice_registered))) =
    get_own "Alice" (players alice_registered).
Proof.
  split; [repeat constructor|].
  apply (entries_change_only_by_their_identifier
           [message_from quiet 2 (update_message "Bob" (JNum "3"));
            closed 1;
            message_from quiet 3 (NotJson "Alice");
            message_from first_handle_dead 2 (update_message "Bob" (JNum "4"))]
           "Alice" alice_registered).
  repeat constructor.
Defined.

(** ** The order of updates *)

Lemma get_own_upsert {V : Type} k k0 (v : V) ps :
  get_own k0 (if has_own k ps then update k v ps else create k v ps) =
  if String.eqb k0 k then Some v else get_own k0 ps.
Proof.
  destruct (String.eqb_spec k0 k) as [->|Hne].
  - destruct (has_own k ps) eqn:H;
      [now apply get_own_update_same | now apply get_own_create_same].
  - destruct (has_own k ps);
      [now apply get_own_update_other | now apply get_own_create_other].
Qed.

(** The state an update leaves on a server whose registry still has
    [Object.prototype]: both entries written, the prototypes as before. *)
Lemma update_on_plain_server env c m id score st :
  as_update m = Some (id, score) -> is_proto_key id = false ->
  wsConnections_proto st = None ->
  let st' := after (on_message env c m st) in
  wsConnections_proto st' = None /\
  (forall k, get_own k (wsConnections st') =
             if String.eqb k id then Some c else get_own k (wsConnections st)) /\
  (forall k, get_own k (players st') =
             if String.eqb k id then Some (Of score) else get_own k (players st)).
Proof.
  intros Hu Hk Hp. cbn zeta. rewrite on_message_after, (as_update_decode _ _ _ Hu).
  rewrite (assign_wsConnections_plain_eq _ _ _ _ Hp Hk). cbn [completion after].
  rewrite (assign_players_plain_eq _ _ _ Hk).
  cbn [after with_players with_wsConnections wsConnections wsConnections_proto
       players players_proto].
  split; [exact Hp|]. split; intros k; apply get_own_upsert.
Qed.

(** X11: updates under different identifiers commute on the contents of the
    stores.  On a server whose registry still has [Object.prototype], two
    valid updates with different identifiers (neither [__proto__]), from any
    connections, leave the same handle and the same score for every
    identifier in whichever order they are handled. *)
Theorem updates_for_different_identifiers_commute
  env1 env2 c1 c2 m1 m2 id1 id2 score1 score2 st :
  as_update m1 = Some (id1, score1) -> as_update m2 = Some (id2, score2) ->
  id1 <> id2 -> is_proto_key id1 = false -> is_proto_key id2 = false ->
  wsConnections_proto st = None ->
  let a := after (on_message env2 c2 m2 (after (on_message env1 c1 m1 st))) in
  let b := after (on_message env1 c1 m1 (after (on_message env2 c2 m2 st))) in
  forall k,
    get_own k (wsConnections a) = get_own k (wsConnections b) /\
    get_own k (players a) = get_own k (players b).
Proof.
  intros Hu1 Hu2 Hne Hk1 Hk2 Hp a b k. subst a b.
  destruct (update_on_plain_server env1 c1 m1 id1 score1 st Hu1 Hk1 Hp) as (Hp1 & Hw1 & Hs1).
  destruct (update_on_plain_server env2 c2 m2 id2 score2 st Hu2 Hk2 Hp) as (Hp2 & Hw2 & Hs2).
  cbn zeta in Hp1, Hw1, Hs1, Hp2, Hw2, Hs2.
  destruct (update_on_plain_server env2 c2 m2 id2 score2 _ Hu2 Hk2 Hp1) as (_ & Hw12 & Hs12).
  destruct (update_on_plain_server env1 c1 m1 id1 score1 _ Hu1 Hk1 Hp2) as (_ & Hw21 & Hs21).
  cbn zeta in Hw12, Hs12, Hw21, Hs21.
  rewrite Hw12, Hs12, Hw21, Hs21, Hw1, Hs1, Hw2, Hs2.
  destruct (String.eqb_spec k id2) as [E2|H2], (String.eqb_spec k id1) as [E1|H1];
    auto. congruence.
Qed.

Lemma updates_for_different_identifiers_commute_witness :
  let m1 := update_message "Bob" (JNum "3") in
  let m2 := update_message "Alice" (JNum "7") in
  as_update m1 = Some ("Bob", JNum "3") /\ as_update m2 = Some ("Alice", JNum "7") /\
  "Bob" <> "Alice" /\ is_proto_key "Bob" = false /\ is_proto_key "Alice" = false /\
  wsConnections_proto alice_registered = None /\
  let a := after (on_message quiet 3 m2 (after (on_message first_handle_dead 2 m1 alice_registered))) in
  let b := after (on_message first_handle_dead 2 m1 (after (on_message quiet 3 m2 alice_registered))) in
  forall k,
    get_own k (wsConnections a) = get_own k (wsConnections b) /\
    get_own k (players a) = get_own k (players b).
Proof.
  split; [reflexivity|]. split; [reflexivity|]. split; [discriminate|].
  split; [reflexivity|]. split; [reflexivity|]. split; [reflexivity|].
  apply (updates_for_different_identifiers_commute first_handle_dead quiet 2 3
           (update_message "Bob" (JNum "3")) (update_message "Alice" (JNum "7"))
           "Bob" "Alice" (JNum "3") (JNum "7") alice_registered);
    (reflexivity || discriminate).
Defined.

(** ** Taking over an identifier *)

Lemma count_occ_update k (c c' : Conn) ps :
  get_own k ps = Some c -> c' <> c ->
  count_occ Nat.eq_dec (Object_values (update k c' ps)) c =
  pred (count_occ Nat.eq_dec (Object_values ps) c).
Proof.
  intros Hget Hne. induction ps as [|[k' v'] ps IH]; [discriminate|].
  cbn [get_own] in Hget. cbn [update]. destruct (String.eqb k k').
  - injection Hget as ->. unfold Object_values. cbn [map snd count_occ].
    destruct (Nat.eq_dec c' c); [contradiction|].
    destruct (Nat.eq_dec c c); [reflexivity | contradiction].
  - unfold Object_values in *. cbn [map snd count_occ].
    destruct (Nat.eq_dec v' c) as [->|Hv]; [|now apply IH].
    rewrite (IH Hget).
    assert (Hin : In c (map snd ps)) by (apply (get_own_value k); exact Hget).
    apply (count_occ_In Nat.eq_dec) in Hin.
    destruct (count_occ Nat.eq_dec (map snd ps) c); [lia | reflexivity].
Qed.

Lemma assign_wsConnections_own_eq env k c st :
  has_own k (wsConnections st) = true ->
  wsConnections (after (assign_wsConnections env k c st)) = update k c (wsConnections st).
Proof. intros H. unfold assign_wsConnections. js_unfold. now rewrite H. Qed.

(** X12: the last writer owns the identifier.  When a connection sends a
    valid update under an identifier that is registered to another
    connection, the identifier passes to the sender; if that was the only
    identifier of the other connection, it is in the registry no more and is
    sent nothing, this broadcast included. *)
Theorem taking_over_an_identifier_evicts env c c' m id score st :
  as_update m = Some (id, score) ->
  get_own id (wsConnections st) = Some c ->
  registrations c (wsConnections st) = 1 ->
  c' <> c ->
  let o := on_message env c' m st in
  get_own id (wsConnections (after o)) = Some c' /\
  registrations c (wsConnections (after o)) = 0 /\
  ~ In c (recipients (trace o)).
Proof.
  intros Hu Hget Hone Hne o.
  assert (Hown : has_own id (wsConnections st) = true)
    by (unfold has_own; now rewrite Hget).
  destruct (assign_wsConnections_own env id c' st Hown) as (Hc & Hget' & _).
  cbn zeta in Hc, Hget'.
  destruct (on_message_update env c' m id score st Hu Hc) as (Ha & _).
  cbn zeta in Ha. fold o in Ha.
  destruct (assign_players_frame id (Of score)
              (after (assign_wsConnections env id c' st))) as (_ & _ & Hw & _).
  cbn zeta in Hw.
  assert (Hreg : wsConnections (after o) = update id c' (wsConnections st))
    by (rewrite Ha, Hw; now apply assign_wsConnections_own_eq).
  assert (Hzero : registrations c (wsConnections (after o)) = 0).
  { unfold registrations in *. rewrite Hreg, (count_occ_update _ _ _ _ Hget Hne).
    now rewrite Hone. }
  split; [rewrite Ha, Hw; exact Hget'|]. split; [exact Hzero|].
  intros Hin. apply In_recipients in Hin. destruct Hin as (text & Hin).
  apply (step_sends (message_from env c' m) st c text) in Hin. cbn [step] in Hin.
  fold o in Hin. apply (count_occ_In Nat.eq_dec) in Hin.
  unfold registrations in Hzero. lia.
Qed.

Lemma taking_over_an_identifier_evicts_witness :
  let m := update_message "Alice" (JNum "7") in
  as_update m = Some ("Alice", JNum "7") /\
  get_own "Alice" (wsConnections alice_registered) = Some 1 /\
  registrations 1 (wsConnections alice_registered) = 1 /\
  2 <> 1 /\
  let o := on_message quiet 2 m alice_registered in
  get_own "Alice" (wsConnections (after o)) = Some 2 /\
  registrations 1 (wsConnections (after o)) = 0 /\
  ~ In 1 (recipients (trace o)).
Proof.
  split; [reflexivity|]. split; [reflexivity|]. split; [reflexivity|].
  split; [discriminate|].
  apply (taking_over_an_identifier_evicts quiet 1 2 (update_message "Alice" (JNum "7"))
           "Alice" (JNum "7") alice_registered);
    (reflexivity || discriminate).
Defined.

(** ** After a connection has closed *)

(** X13: a closed connection stays a recipient.  If a connection is
    registered under an identifier and then closes, the next message of
    another identifier whose [try] block completes still sends the snapshot
    to the closed connection's handle, which is still registered. *)
Theorem closed_connection_is_still_sent_the_snapshot env c c' m id st :
  get_own id (wsConnections st) = Some c ->
  bears id (message_from env c' m) = false ->
  completion (relay env c' m st) = inr tt ->
  let r := run [closed c; message_from env c' m] st in
  get_own id (wsConnections (fst r)) = Some c /\
  In (socket_send c (JSON_stringify (players (fst r)))) (snd r).
Proof.
  intros Hget Hb Hr r. subst r. rewrite !run_cons. cbn [run fst snd step].
  cbn [on_close emit after trace app]. rewrite app_nil_r.
  destruct (on_message_other env c' m st id Hb) as (Hw & _).
  assert (Hget' : get_own id (wsConnections (after (on_message env c' m st))) = Some c)
    by now rewrite Hw.
  split; [exact Hget'|]. right. apply In_sends.
  rewrite (on_message_complete_sends _ _ _ _ Hr).
  apply in_map_iff. exists c. split; [reflexivity|].
  now apply (get_own_value id).
Qed.

Lemma closed_connection_is_still_sent_the_snapshot_witness :
  let m := update_message "Bob" (JNum "3") in
  get_own "Alice" (wsConnections alice_registered) = Some 1 /\
  bears "Alice" (message_from quiet 2 m) = false /\
  completion (relay quiet 2 m alice_registered) = inr tt /\
  let r := run [closed 1; message_from quiet 2 m] alice_registered in
  get_own "Alice" (wsConnections (fst r)) = Some 1 /\
  In (socket_send 1 (JSON_stringify (players (fst r)))) (snd r).
Proof.
  split; [reflexivity|]. split; [reflexivity|]. split; [reflexivity|].
  apply (closed_connection_is_still_sent_the_snapshot quiet 1 2
           (update_message "Bob" (JNum "3")) "Alice" alice_registered);
    reflexivity.
Defined.

(** * The page *)

Lemma page_run_cons ev rest p :
  HomePage.run (ev :: rest) p =
  let o := HomePage.step ev p in
  let r := if HomePage.unmounts (trace o)
           then HomePage.run_after_unmount rest (after o)
           else HomePage.run rest (after o) in
  (fst r, trace o ++ snd r).
Proof.
  cbn [HomePage.run]. cbn zeta. destruct (HomePage.unmounts (trace (HomePage.step ev p))).
  - destruct (HomePage.run_after_unmount rest (after (HomePage.step ev p))); reflexivity.
  - destruct (HomePage.run rest (after (HomePage.step ev p))); reflexivity.
Qed.

Lemma run_after_unmount_cons ev rest p :
  HomePage.run_after_unmount (ev :: rest) p =
  (fst (HomePage.run_after_unmount rest (after (HomePage.after_unmount ev p))),
   trace (HomePage.after_unmount ev p) ++
   snd (HomePage.run_after_unmount rest (after (HomePage.after_unmount ev p)))).
Proof.
  cbn [HomePage.run_after_unmount].
  destruct (HomePage.run_after_unmount rest (after (HomePage.after_unmount ev p)));
    reflexivity.
Qed.

Lemma transmissions_app t1 t2 :
  HomePage.transmissions (t1 ++ t2) = HomePage.transmissions t1 ++ HomePage.transmissions t2.
Proof.
  induction t1 as [|[e|[d|e|text|]] t1 IH]; cbn; auto. now rewrite IH.
Qed.

(** What one event does to the page: to the cached snapshot, to the name,
    to the socket, and what it transmits. *)
Lemma page_step ev p :
  let p' := after (HomePage.step ev p) in
  WsContext.players (HomePage.ws p') =
    match ev with
    | HomePage.message_received (JsonText v) => v
    | _ => WsContext.players (HomePage.ws p)
    end /\
  HomePage.name p' =
    match ev with
    | HomePage.name_typed n => n
    | _ => HomePage.name p
    end /\
  HomePage.is_open p' =
    match ev with
    | HomePage.connection_established =>
        match WsContext.ws_current (HomePage.ws p) with Some _ => true | None => false end
    | HomePage.connection_closed _ => false
    | _ => HomePage.is_open p && HomePage.renders (WsContext.players (HomePage.ws p'))
    end /\
  HomePage.transmissions (trace (HomePage.step ev p)) =
    match ev with
    | HomePage.score_typed v =>
        if HomePage.is_open p
        then [JObj [("playerId", JStr (HomePage.name p)); ("score", JStr v)]]
        else []
    | _ => []
    end.
Proof.
  destruct p as [n s [cached current]]. unfold HomePage.is_open.
  destruct ev as [value|value| |failed|[text|v]];
    cbn [HomePage.step HomePage.updating HomePage.rerender].
  - cbn. destruct (HomePage.renders cached) eqn:E, current as [[| | |]|];
      cbn; rewrite ?E; auto.
  - destruct current as [[| | |]|]; cbn;
      destruct (HomePage.renders cached) eqn:E; cbn; rewrite ?E; auto.
  - destruct current; cbn; auto.
  - destruct current, failed; cbn; auto.
  - cbn. destruct (HomePage.renders cached) eqn:E, current as [[| | |]|];
      cbn; rewrite ?E; auto.
  - cbn. destruct (HomePage.renders v) eqn:E, current as [[| | |]|];
      cbn; rewrite ?E; auto.
Qed.

(** What one event does to the Score input, and whether it takes the page
    down: the cleanup of the provider runs exactly when a render follows the
    event and throws. *)
Lemma page_step_render ev p :
  let p' := after (HomePage.step ev p) in
  HomePage.score p' =
    match ev with
    | HomePage.score_typed v => v
    | _ => HomePage.score p
    end /\
  HomePage.unmounts (trace (HomePage.step ev p)) =
    match ev with
    | HomePage.connection_established | HomePage.connection_closed _ => false
    | _ => negb (HomePage.renders (WsContext.players (HomePage.ws p')))
    end.
Proof.
  destruct p as [n s [cached current]].
  destruct ev as [value|value| |failed|[text|v]];
    cbn [HomePage.step HomePage.updating HomePage.rerender].
  - cbn. destruct (HomePage.renders cached) eqn:E, current as [[| | |]|];
      cbn; rewrite ?E; auto.
  - destruct current as [[| | |]|]; cbn;
      destruct (HomePage.renders cached) eqn:E; cbn; rewrite ?E; auto.
  - destruct current; cbn; auto.
  - destruct current, failed; cbn; auto.
  - cbn. destruct (HomePage.renders cached) eqn:E, current as [[| | |]|];
      cbn; rewrite ?E; auto.
  - cbn. destruct (HomePage.renders v) eqn:E, current as [[| | |]|];
      cbn; rewrite ?E; auto.
Qed.

Lemma unmounts_app t1 t2 :
  HomePage.unmounts (t1 ++ t2) = HomePage.unmounts t1 || HomePage.unmounts t2.
Proof.
  induction t1 as [|[e|[d|e|text|]] t1 IH]; cbn; auto.
Qed.

(** The render that takes the page down leaves its socket not open. *)
Lemma step_unmount_closes ev p :
  HomePage.unmounts (trace (HomePage.step ev p)) = true ->
  HomePage.is_open (after (HomePage.step ev p)) = false.
Proof.
  destruct (page_step ev p) as (_ & _ & Ho & _).
  destruct (page_step_render ev p) as (_ & Hu). cbn zeta in Ho, Hu.
  rewrite Hu, Ho.
  destruct ev; try discriminate; intros H; apply Bool.negb_true_iff in H;
    rewrite H; apply Bool.andb_false_r.
Qed.

(** What one event does once the page is unmounted: nothing to the inputs and
    to the cached snapshot, nothing is transmitted, and the socket does not
    open. *)
Lemma after_unmount_step ev p :
  let o := HomePage.after_unmount ev p in
  HomePage.name (after o) = HomePage.name p /\
  HomePage.score (after o) = HomePage.score p /\
  WsContext.players (HomePage.ws (after o)) = WsContext.players (HomePage.ws p) /\
  (HomePage.is_open p = false -> HomePage.is_open (after o) = false) /\
  HomePage.transmissions (trace o) = [] /\
  HomePage.unmounts (trace o) = false.
Proof.
  destruct p as [n s [cached current]]. unfold HomePage.is_open.
  destruct ev as [value|value| |failed|[text|v]]; cbn; auto 10.
  destruct current, failed; cbn; auto 10.
Qed.

Lemma run_after_unmount_spec evs p :
  let r := HomePage.run_after_unmount evs p in
  HomePage.name (fst r) = HomePage.name p /\
  HomePage.score (fst r) = HomePage.score p /\
  WsContext.players (HomePage.ws (fst r)) = WsContext.players (HomePage.ws p) /\
  (HomePage.is_open p = false -> HomePage.is_open (fst r) = false) /\
  HomePage.transmissions (snd r) = [] /\
  HomePage.unmounts (snd r) = false.
Proof.
  cbn zeta. revert p. induction evs as [|ev rest IH]; intros p; [cbn; auto 10|].
  rewrite run_after_unmount_cons. cbn [fst snd].
  destruct (after_unmount_step ev p) as (Hn & Hs & Hc & Ho & Ht & Hu).
  destruct (IH (after (HomePage.after_unmount ev p))) as (Hn' & Hs' & Hc' & Ho' & Ht' & Hu').
  cbn zeta in *. rewrite transmissions_app, unmounts_app, Hn', Hs', Hc', Ht, Ht', Hu, Hu'.
  auto 10.
Qed.

(** Once the socket is not open, it stays so and nothing is transmitted until
    the connection is established. *)
Lemma page_stays_closed evs p :
  HomePage.is_open p = false ->
  Forall (fun ev => HomePage.opens ev = false) evs ->
  HomePage.transmissions (snd (HomePage.run evs p)) = [] /\
  HomePage.is_open (fst (HomePage.run evs p)) = false.
Proof.
  intros Hopen Hall. revert p Hopen.
  induction Hall as [|ev rest Hev Hrest IH]; intros p Hopen; [auto|].
  rewrite page_run_cons. cbn zeta. cbn [fst snd]. rewrite transmissions_app.
  destruct (page_step ev p) as (_ & _ & Ho & Ht). cbn zeta in Ho.
  assert (Ho' : HomePage.is_open (after (HomePage.step ev p)) = false).
  { rewrite Ho. destruct ev; try discriminate; rewrite ?Hopen; auto. }
  assert (Ht' : HomePage.transmissions (trace (HomePage.step ev p)) = []).
  { rewrite Ht, Hopen. destruct ev; reflexivity. }
  rewrite Ht'. destruct (HomePage.unmounts (trace (HomePage.step ev p))).
  - destruct (run_after_unmount_spec rest (after (HomePage.step ev p)))
      as (_ & _ & _ & Hc & -> & _). cbn zeta in Hc. auto.
  - destruct (IH _ Ho') as (-> & ->). auto.
Qed.

(** A run that ends with the socket open has not unmounted the page: what
    follows it is handled by the mounted page, and the Name input holds the
    text typed last. *)
Lemma page_run_open before p :
  HomePage.is_open (fst (HomePage.run before p)) = true ->
  (forall more,
     HomePage.run (before ++ more) p =
     (fst (HomePage.run more (fst (HomePage.run before p))),
      snd (HomePage.run before p) ++ snd (HomePage.run more (fst (HomePage.run before p))))) /\
  HomePage.name (fst (HomePage.run before p)) =
    match HomePage.last_name before with
    | Some n => n
    | None => HomePage.name p
    end.
Proof.
  revert p. induction before as [|ev rest IH]; intros p.
  - intros _. split; [|reflexivity]. intros more.
    cbn [app HomePage.run fst snd]. now destruct (HomePage.run more p).
  - rewrite page_run_cons. cbn zeta. cbn [fst].
    destruct (HomePage.unmounts (trace (HomePage.step ev p))) eqn:Hu.
    + intros Hopen. exfalso.
      destruct (run_after_unmount_spec rest (after (HomePage.step ev p)))
        as (_ & _ & _ & Hc & _). cbn zeta in Hc.
      rewrite (Hc (step_unmount_closes _ _ Hu)) in Hopen. discriminate.
    + intros Hopen. destruct (IH _ Hopen) as (Happ & Hname). split.
      * intros more. cbn [app]. rewrite page_run_cons. cbn zeta. rewrite Hu, Happ.
        cbn [fst snd]. now rewrite app_assoc.
      * rewrite Hname. cbn [HomePage.last_name].
        destruct (HomePage.last_name rest); [reflexivity|].
        destruct (page_step ev p) as (_ & -> & _). destruct ev; reflexivity.
Qed.

(** X14: while every snapshot renders, the cached snapshot is the last
    message that parsed.  From a page that renders its cache, over any
    sequence of events (typing, socket events, messages that parse and
    messages that do not) in which every message that parses can be rendered
    by the page, [players] of the provider is the value of the last message
    that parsed, or what it was when none did; the page renders it, and the
    provider is never unmounted. *)
Theorem cache_is_the_last_snapshot evs p :
  HomePage.renders (WsContext.players (HomePage.ws p)) = true ->
  Forall (fun ev => HomePage.renderable ev = true) evs ->
  WsContext.players (HomePage.ws (fst (HomePage.run evs p))) =
    match HomePage.last_parsed evs with
    | Some v => v
    | None => WsContext.players (HomePage.ws p)
    end /\
  HomePage.renders (WsContext.players (HomePage.ws (fst (HomePage.run evs p)))) = true /\
  HomePage.unmounts (snd (HomePage.run evs p)) = false.
Proof.
  intros Hp Hall. revert p Hp.
  induction Hall as [|ev rest Hev Hrest IH]; intros p Hp; [auto|].
  rewrite page_run_cons. cbn zeta.
  destruct (page_step ev p) as (Hc & _).
  destruct (page_step_render ev p) as (_ & Hu). cbn zeta in Hc, Hu.
  assert (Hp' : HomePage.renders
                  (WsContext.players (HomePage.ws (after (HomePage.step ev p)))) = true).
  { rewrite Hc. destruct ev as [| | | |[|]]; auto. }
  assert (Hu' : HomePage.unmounts (trace (HomePage.step ev p)) = false).
  { rewrite Hu, Hp'. destruct ev; reflexivity. }
  rewrite Hu'. cbn [fst snd]. rewrite unmounts_app, Hu'.
  destruct (IH _ Hp') as (-> & -> & ->). split; [|auto].
  cbn [HomePage.last_parsed]. destruct (HomePage.last_parsed rest); [reflexivity|].
  rewrite Hc. destruct ev as [| | | |[|]]; reflexivity.
Qed.

Lemma cache_is_the_last_snapshot_witness :
  let evs := [HomePage.connection_established;
              HomePage.message_received (JsonText (JObj [("Alice", JNum "5")]));
              HomePage.score_typed "7";
              HomePage.message_received (NotJson "?");
              HomePage.message_received
                (JsonText (JObj [("Alice", JArr [JNull; JStr "7"]); ("Bob", JBool true)]));
              HomePage.connection_closed false] in
  HomePage.renders (WsContext.players (HomePage.ws HomePage.mounted)) = true /\
  Forall (fun ev => HomePage.renderable ev = true) evs /\
  WsContext.players (HomePage.ws (fst (HomePage.run evs HomePage.mounted))) =
    match HomePage.last_parsed evs with
    | Some v => v
    | None => WsContext.players (HomePage.ws HomePage.mounted)
    end /\
  HomePage.renders
    (WsContext.players (HomePage.ws (fst (HomePage.run evs HomePage.mounted)))) = true /\
  HomePage.unmounts (snd (HomePage.run evs HomePage.mounted)) = false.
Proof.
  split; [reflexivity|]. split; [repeat constructor|].
  apply (cache_is_the_last_snapshot
           [HomePage.connection_established;
            HomePage.message_received (JsonText (JObj [("Alice", JNum "5")]));
            HomePage.score_typed "7";
            HomePage.message_received (NotJson "?");
            HomePage.message_received
              (JsonText (JObj [("Alice", JArr [JNull; JStr "7"]); ("Bob", JBool true)]));
            HomePage.connection_closed false]
           HomePage.mounted); [reflexivity | repeat constructor].
Defined.

(** X22: a snapshot the page cannot render takes the page down, for good.
    When a message parses to [null], or to a snapshot in which some score is
    an object (alone or inside an array), the render that follows
    [setPlayers] throws: the provider is unmounted and the cleanup of its
    effect closes the socket.  Whatever happens afterwards, nothing is
    transmitted, the socket is never open again, and the two inputs and the
    cached snapshot stay as they were when the page went down. *)
Theorem unrenderable_snapshot_takes_the_page_down v p evs :
  HomePage.renders v = false ->
  let o := HomePage.step (HomePage.message_received (JsonText v)) p in
  let r := HomePage.run (HomePage.message_received (JsonText v) :: evs) p in
  HomePage.unmounts (trace o) = true /\
  HomePage.is_open (after o) = false /\
  HomePage.transmissions (snd r) = [] /\
  HomePage.is_open (fst r) = false /\
  HomePage.name (fst r) = HomePage.name p /\
  HomePage.score (fst r) = HomePage.score p /\
  WsContext.players (HomePage.ws (fst r)) = v.
Proof.
  intros Hv o r. subst o r. rewrite page_run_cons. cbn zeta.
  destruct (page_step (HomePage.message_received (JsonText v)) p) as (Hc & Hn & _ & Ht).
  destruct (page_step_render (HomePage.message_received (JsonText v)) p) as (Hs & Hu).
  cbn zeta in Hc, Hn, Hs, Hu. rewrite Hc, Hv in Hu. cbn [negb] in Hu.
  pose proof (step_unmount_closes _ _ Hu) as Ho.
  rewrite Hu. cbn [fst snd]. rewrite transmissions_app, Ht.
  destruct (run_after_unmount_spec evs
              (after (HomePage.step (HomePage.message_received (JsonText v)) p)))
    as (-> & -> & -> & Hclosed & -> & _). cbn zeta in Hclosed.
  rewrite (Hclosed Ho). auto 10.
Qed.

Lemma unrenderable_snapshot_takes_the_page_down_witness :
  let v := JObj [("Alice", JNum "5"); ("Eve", JArr [JStr "x"; JObj []])] in
  let p := fst (HomePage.run [HomePage.connection_established; HomePage.name_typed "Bob"]
                  HomePage.mounted) in
  let evs := [HomePage.score_typed "3"; HomePage.connection_established;
              HomePage.message_received (JsonText (JObj [])); HomePage.name_typed "Al";
              HomePage.score_typed "4"; HomePage.connection_closed false] in
  HomePage.renders v = false /\
  HomePage.is_open p = true /\
  let o := HomePage.step (HomePage.message_received (JsonText v)) p in
  let r := HomePage.run (HomePage.message_received (JsonText v) :: evs) p in
  HomePage.unmounts (trace o) = true /\
  HomePage.is_open (after o) = false /\
  HomePage.transmissions (snd r) = [] /\
  HomePage.is_open (fst r) = false /\
  HomePage.name (fst r) = HomePage.name p /\
  HomePage.score (fst r) = HomePage.score p /\
  WsContext.players (HomePage.ws (fst r)) = v.
Proof.
  split; [reflexivity|]. split; [reflexivity|].
  apply (unrenderable_snapshot_takes_the_page_down
           (JObj [("Alice", JNum "5"); ("Eve", JArr [JStr "x"; JObj []])])
           (fst (HomePage.run [HomePage.connection_established; HomePage.name_typed "Bob"]
                   HomePage.mounted))
           [HomePage.score_typed "3"; HomePage.connection_established;
            HomePage.message_received (JsonText (JObj [])); HomePage.name_typed "Al";
            HomePage.score_typed "4"; HomePage.connection_closed false]);
    reflexivity.
Defined.

(** X15: the page transmits nothing until the socket has opened.  From a
    state whose socket is not open (the mounted page, whose socket is
    connecting), a run without the connection being established transmits no
    frame, however much the user types. *)
Theorem nothing_is_transmitted_before_the_socket_opens evs p :
  HomePage.is_open p = false ->
  Forall (fun ev => HomePage.opens ev = false) evs ->
  HomePage.transmissions (snd (HomePage.run evs p)) = [] /\
  HomePage.is_open (fst (HomePage.run evs p)) = false.
Proof. apply page_stays_closed. Qed.

Lemma nothing_is_transmitted_before_the_socket_opens_witness :
  let evs := [HomePage.name_typed "Alice"; HomePage.score_typed "5";
              HomePage.connection_closed true; HomePage.score_typed "6"] in
  HomePage.is_open HomePage.mounted = false /\
  Forall (fun ev => HomePage.opens ev = false) evs /\
  HomePage.transmissions (snd (HomePage.run evs HomePage.mounted)) = [] /\
  HomePage.is_open (fst (HomePage.run evs HomePage.mounted)) = false.
Proof.
  split; [reflexivity|]. split; [repeat constructor|].
  apply (nothing_is_transmitted_before_the_socket_opens
           [HomePage.name_typed "Alice"; HomePage.score_typed "5";
            HomePage.connection_closed true; HomePage.score_typed "6"]
           HomePage.mounted); [reflexivity | repeat constructor].
Defined.

(** X16: every frame the page transmits is a valid update for the server
    whose [score] is a string: the text typed into the Score input (never a
    number, whatever the declared type of [setScore]), under a name that was
    in the Name input. *)
Theorem every_frame_is_a_typed_update evs p :
  Forall (fun text =>
            exists n v,
              text = JObj [("playerId", JStr n); ("score", JStr v)] /\
              as_update (JsonText text) = Some (n, JStr v) /\
              In (HomePage.score_typed v) evs /\
              (n = HomePage.name p \/ In (HomePage.name_typed n) evs))
    (HomePage.transmissions (snd (HomePage.run evs p))).
Proof.
  revert p. induction evs as [|ev rest IH]; intros p; [constructor|].
  rewrite page_run_cons. cbn zeta. cbn [snd]. rewrite transmissions_app. apply Forall_app.
  destruct (page_step ev p) as (_ & Hn & _ & Ht). cbn zeta in Hn. split.
  - rewrite Ht. destruct ev as [value|value| |failed|data]; try constructor.
    destruct (HomePage.is_open p); constructor; [|constructor].
    exists (HomePage.name p), value. repeat split; [now left | now left].
  - destruct (HomePage.unmounts (trace (HomePage.step ev p))).
    + destruct (run_after_unmount_spec rest (after (HomePage.step ev p)))
        as (_ & _ & _ & _ & -> & _). constructor.
    + eapply Forall_impl; [|apply IH].
      intros text (n & v & -> & Hu & Hv & Hname). exists n, v.
      split; [reflexivity|]. split; [exact Hu|]. split; [now right|].
      destruct Hname as [->|Hin]; [|right; now right].
      rewrite Hn. destruct ev; auto. right. now left.
Qed.

(** X17: a score typed while the socket is open is transmitted under the
    name typed last before it (the initial name if none was typed),
    whatever else happened before and happens after. *)
Theorem score_is_sent_under_the_current_name before v later p :
  HomePage.is_open (fst (HomePage.run before p)) = true ->
  In (JObj [("playerId",
             JStr (match HomePage.last_name before with
                   | Some n => n
                   | None => HomePage.name p
                   end));
            ("score", JStr v)])
     (HomePage.transmissions
        (snd (HomePage.run (before ++ HomePage.score_typed v :: later) p))).
Proof.
  intros Hopen. destruct (page_run_open before p Hopen) as (Happ & Hname).
  rewrite Happ. cbn [snd]. rewrite page_run_cons. cbn zeta. cbn [snd].
  rewrite !transmissions_app.
  destruct (page_step (HomePage.score_typed v) (fst (HomePage.run before p)))
    as (_ & _ & _ & Ht).
  rewrite Ht, Hopen, Hname.
  apply in_or_app. right. apply in_or_app. left. now left.
Qed.

Lemma score_is_sent_under_the_current_name_witness :
  let before := [HomePage.name_typed "Al"; HomePage.connection_established;
                 HomePage.name_typed "Alice"; HomePage.message_received (NotJson "?")] in
  let later := [HomePage.name_typed "Bob"; HomePage.connection_closed false] in
  HomePage.is_open (fst (HomePage.run before HomePage.mounted)) = true /\
  In (JObj [("playerId", JStr "Alice"); ("score", JStr "5")])
     (HomePage.transmissions
        (snd (HomePage.run (before ++ HomePage.score_typed "5" :: later) HomePage.mounted))).
Proof.
  split; [reflexivity|].
  apply (score_is_sent_under_the_current_name
           [HomePage.name_typed "Al"; HomePage.connection_established;
            HomePage.name_typed "Alice"; HomePage.message_received (NotJson "?")]
           "5" [HomePage.name_typed "Bob"; HomePage.connection_closed false]
           HomePage.mounted).
  reflexivity.
Defined.

(** * From the page to the server and back *)

(** X18: a typed score comes back to the page that sent it.  The page is
    open, renders its cache, and its name is not [__proto__]; the user types
    a score; the server, whose registry still has [Object.prototype], handles
    the frame from the page's connection and its [try] block completes; the
    page then receives what the server sent it.  The frame is a valid update,
    the server sends the snapshot to the sender's own handle, and in the
    snapshot the page's name maps to the typed text.  When the page can
    render the snapshot, it caches exactly that snapshot, stays mounted with
    its socket open, and its two inputs are as the user left them; when it
    cannot (some player's score in the snapshot is an object), the render
    throws, the provider is unmounted and its socket closed. *)
Theorem typed_score_comes_back env c v p st :
  HomePage.is_open p = true ->
  HomePage.renders (WsContext.players (HomePage.ws p)) = true ->
  is_proto_key (HomePage.name p) = false ->
  wsConnections_proto st = None ->
  let frame := JObj [("playerId", JStr (HomePage.name p)); ("score", JStr v)] in
  completion (relay env c (JsonText frame) st) = inr tt ->
  let o := on_message env c (JsonText frame) st in
  let snapshot := JSON_stringify (players (after o)) in
  let typed := HomePage.step (HomePage.score_typed v) p in
  let received := HomePage.step (HomePage.message_received (JsonText snapshot))
                    (after typed) in
  let p' := after received in
  HomePage.transmissions (trace typed) = [frame] /\
  HomePage.unmounts (trace typed) = false /\
  In (socket_send c snapshot) (trace o) /\
  get_own (HomePage.name p) (entries (players (after o))) = Some (JStr v) /\
  if HomePage.renders snapshot
  then WsContext.players (HomePage.ws p') = snapshot /\
       HomePage.unmounts (trace received) = false /\
       HomePage.is_open p' = true /\
       HomePage.name p' = HomePage.name p /\
       HomePage.score p' = v
  else HomePage.unmounts (trace received) = true /\
       HomePage.is_open p' = false.
Proof.
  intros Hopen Hrender Hk Hp frame Hr o snapshot typed received p'.
  assert (Hu : as_update (JsonText frame) = Some (HomePage.name p, JStr v)) by reflexivity.
  destruct (update_on_plain_server env c _ _ _ st Hu Hk Hp) as (_ & Hw & Hs).
  cbn zeta in Hw, Hs. fold o in Hw, Hs.
  specialize (Hw (HomePage.name p)). specialize (Hs (HomePage.name p)).
  rewrite String.eqb_refl in Hw, Hs.
  destruct (page_step (HomePage.score_typed v) p) as (Hc1 & Hn1 & Ho1 & Ht1).
  destruct (page_step_render (HomePage.score_typed v) p) as (Hs1 & Hu1).
  cbn zeta in Hc1, Hn1, Ho1, Hs1, Hu1. fold typed in Hc1, Hn1, Ho1, Ht1, Hs1, Hu1.
  rewrite Hc1 in Ho1, Hu1. rewrite Hrender in Ho1, Hu1. rewrite Hopen in Ho1, Ht1.
  destruct (page_step (HomePage.message_received (JsonText snapshot)) (after typed))
    as (Hc2 & Hn2 & Ho2 & _).
  destruct (page_step_render (HomePage.message_received (JsonText snapshot)) (after typed))
    as (Hs2 & Hu2).
  cbn zeta in Hc2, Hn2, Ho2, Hs2, Hu2. fold received p' in Hc2, Hn2, Ho2, Hs2, Hu2.
  rewrite Hc2 in Ho2, Hu2. rewrite Ho1 in Ho2.
  split; [exact Ht1|]. split; [exact Hu1|]. split; [|split].
  - apply In_sends. subst snapshot o.
    rewrite (on_message_complete_sends _ _ _ _ Hr).
    apply in_map_iff. exists c. split; [reflexivity|].
    now apply (get_own_value (HomePage.name p)).
  - now rewrite (get_own_entries_value _ _ _ Hs).
  - destruct (HomePage.renders snapshot); cbn in Ho2, Hu2.
    + rewrite Hn2, Hn1, Hs2, Hs1. auto.
    + auto.
Qed.

Lemma typed_score_comes_back_witness :
  let p := fst (HomePage.run [HomePage.connection_established; HomePage.name_typed "Bob"]
                  HomePage.mounted) in
  let frame := JObj [("playerId", JStr (HomePage.name p)); ("score", JStr "3")] in
  HomePage.is_open p = true /\
  HomePage.renders (WsContext.players (HomePage.ws p)) = true /\
  is_proto_key (HomePage.name p) = false /\
  wsConnections_proto alice_registered = None /\
  completion (relay quiet 2 (JsonText frame) alice_registered) = inr tt /\
  let o := on_message quiet 2 (JsonText frame) alice_registered in
  let snapshot := JSON_stringify (players (after o)) in
  let typed := HomePage.step (HomePage.score_typed "3") p in
  let received := HomePage.step (HomePage.message_received (JsonText snapshot))
                    (after typed) in
  let p' := after received in
  HomePage.transmissions (trace typed) = [frame] /\
  HomePage.unmounts (trace typed) = false /\
  In (socket_send 2 snapshot) (trace o) /\
  get_own (HomePage.name p) (entries (players (after o))) = Some (JStr "3") /\
  if HomePage.renders snapshot
  then WsContext.players (HomePage.ws p') = snapshot /\
       HomePage.unmounts (trace received) = false /\
       HomePage.is_open p' = true /\
       HomePage.name p' = HomePage.name p /\
       HomePage.score p' = "3"
  else HomePage.unmounts (trace received) = true /\
       HomePage.is_open p' = false.
Proof.
  split; [reflexivity|]. split; [reflexivity|]. split; [reflexivity|].
  split; [reflexivity|]. split; [reflexivity|].
  apply (typed_score_comes_back quiet 2 "3"
           (fst (HomePage.run [HomePage.connection_established; HomePage.name_typed "Bob"]
                   HomePage.mounted))
           alice_registered); reflexivity.
Defined.

(** X23: one client can take every page down.  When a client sends an
    update whose score is a JSON object, under an identifier other than
    [__proto__], to a server whose registry still has [Object.prototype],
    and the [try] block completes, the snapshot that is broadcast holds that
    object under the identifier: every registered handle, the sender's
    included, is sent a snapshot that [HomePage] cannot render, and a page
    that receives it is unmounted with its socket closed, whatever it was
    showing. *)
Theorem an_object_score_takes_every_page_down env c m id members st :
  as_update m = Some (id, JObj members) ->
  is_proto_key id = false ->
  wsConnections_proto st = None ->
  completion (relay env c m st) = inr tt ->
  let o := on_message env c m st in
  let snapshot := JSON_stringify (players (after o)) in
  HomePage.renders snapshot = false /\
  sends (trace o) =
    map (fun h => (h, snapshot)) (Object_values (wsConnections (after o))) /\
  In (c, snapshot) (sends (trace o)) /\
  forall p,
    let received := HomePage.step (HomePage.message_received (JsonText snapshot)) p in
    HomePage.unmounts (trace received) = true /\
    HomePage.is_open (after received) = false.
Proof.
  intros Hu Hk Hp Hr o snapshot.
  destruct (update_on_plain_server env c _ _ _ st Hu Hk Hp) as (_ & Hw & Hs).
  cbn zeta in Hw, Hs. fold o in Hw, Hs.
  specialize (Hw id). specialize (Hs id). rewrite String.eqb_refl in Hw, Hs.
  pose proof (on_message_complete_sends _ _ _ _ Hr) as Hsends.
  cbn zeta in Hsends. fold o snapshot in Hsends.
  assert (Hrender : HomePage.renders snapshot = false).
  { apply get_own_entries_value, get_own_In in Hs.
    subst snapshot. unfold JSON_stringify. cbn [HomePage.renders].
    apply Bool.not_true_is_false. intros Hall.
    rewrite forallb_forall in Hall. specialize (Hall _ Hs). discriminate Hall. }
  split; [exact Hrender|]. split; [exact Hsends|]. split.
  - rewrite Hsends. apply in_map_iff. exists c. split; [reflexivity|].
    now apply (get_own_value id).
  - intros p received. subst received.
    destruct (page_step (HomePage.message_received (JsonText snapshot)) p) as (Hc & _).
    destruct (page_step_render (HomePage.message_received (JsonText snapshot)) p)
      as (_ & Hun).
    cbn zeta in Hc, Hun. rewrite Hc, Hrender in Hun. cbn [negb] in Hun.
    split; [exact Hun|]. now apply step_unmount_closes.
Qed.

Lemma an_object_score_takes_every_page_down_witness :
  let m := update_message "Eve" (JObj [("x", JNum "1")]) in
  as_update m = Some ("Eve", JObj [("x", JNum "1")]) /\
  is_proto_key "Eve" = false /\
  wsConnections_proto alice_registered = None /\
  completion (relay quiet 2 m alice_registered) = inr tt /\
  let o := on_message quiet 2 m alice_registered in
  let snapshot := JSON_stringify (players (after o)) in
  HomePage.renders snapshot = false /\
  sends (trace o) =
    map (fun h => (h, snapshot)) (Object_values (wsConnections (after o))) /\
  In (2, snapshot) (sends (trace o)) /\
  forall p,
    let received := HomePage.step (HomePage.message_received (JsonText snapshot)) p in
    HomePage.unmounts (trace received) = true /\
    HomePage.is_open (after received) = false.
Proof.
  split; [reflexivity|]. split; [reflexivity|]. split; [reflexivity|].
  split; [reflexivity|].
  apply (an_object_score_takes_every_page_down quiet 2
           (update_message "Eve" (JObj [("x", JNum "1")])) "Eve" [("x", JNum "1")]
           alice_registered); reflexivity.
Defined.

(** * Last writer, for every message *)

Lemma on_message_plain env c m st :
  bears "__proto__" (message_from env c m) = false ->
  wsConnections_proto st = None ->
  let st' := after (on_message env c m st) in
  wsConnections_proto st' = None /\
  forall k,
    get_own k (wsConnections st') =
      match decode m with
      | inr (k', _) => if String.eqb k k' then Some c else get_own k (wsConnections st)
      | inl _ => get_own k (wsConnections st)
      end /\
    get_own k (players st') =
      match decode m with
      | inr (k', score) => if String.eqb k k' then Some score else get_own k (players st)
      | inl _ => get_own k (players st)
      end.
Proof.
  intros Hb Hp. cbn zeta. rewrite on_message_after.
  destruct (decode m) as [e|[k' score]] eqn:Hd; [auto|].
  pose proof (bears_proto_decode _ _ _ _ _ Hb Hd) as Hk.
  rewrite (assign_wsConnections_plain_eq _ _ _ _ Hp Hk). cbn [completion after].
  rewrite (assign_players_plain_eq _ _ _ Hk).
  cbn [after with_players with_wsConnections wsConnections wsConnections_proto
       players players_proto].
  split; [exact Hp|]. intros k. split; apply get_own_upsert.
Qed.

(** X19: last writer wins, for every kind of message.  In a run from the
    start in which no message bears [__proto__], each key of the two objects
    holds what the last message bearing it brought: [wsConnections[k]] is the
    connection that sent it and [players[k]] is its score, [undefined] when
    it had none; a key no message bore is in neither object.  Messages count
    by the key their [playerId] converts to, with or without a [score], and
    whether or not their broadcast failed. *)
Theorem each_key_holds_its_last_message evs k :
  Forall (fun ev => bears "__proto__" ev = false) evs ->
  let st := fst (run evs initial) in
  get_own k (wsConnections st) = option_map fst (last_bearing k evs) /\
  get_own k (players st) = option_map snd (last_bearing k evs).
Proof.
  intros Hall. cbn zeta.
  assert (Hgen : forall st, wsConnections_proto st = None ->
    get_own k (wsConnections (fst (run evs st))) =
      match last_bearing k evs with
      | Some w => Some (fst w)
      | None => get_own k (wsConnections st)
      end /\
    get_own k (players (fst (run evs st))) =
      match last_bearing k evs with
      | Some w => Some (snd w)
      | None => get_own k (players st)
      end).
  { induction Hall as [|ev rest Hev Hrest IH]; intros st Hp; [auto|].
    rewrite run_cons. cbn [fst last_bearing]. rewrite step_after.
    destruct ev as [c|env c m|c].
    - destruct (IH st Hp) as (-> & ->). destruct (last_bearing k rest); auto.
    - destruct (on_message_plain env c m st Hev Hp) as (Hp' & Hget).
      cbn zeta in Hp', Hget. destruct (IH _ Hp') as (-> & ->).
      destruct (last_bearing k rest); [auto|].
      destruct (Hget k) as (-> & ->).
      destruct (decode m) as [e|[k' score]]; [auto|].
      rewrite (String.eqb_sym k k'). destruct (String.eqb k' k); auto.
    - destruct (IH st Hp) as (-> & ->). destruct (last_bearing k rest); auto. }
  destruct (Hgen initial eq_refl) as (-> & ->).
  destruct (last_bearing k evs); auto.
Qed.

Lemma each_key_holds_its_last_message_witness :
  let evs := [message_from quiet 1 (update_message "Bob" (JNum "3"));
              message_from first_handle_dead 2
                (JsonText (JObj [("playerId", JStr "Bob")]));
              closed 2;
              message_from quiet 3 (NotJson "Bob")] in
  Forall (fun ev => bears "__proto__" ev = false) evs /\
  let st := fst (run evs initial) in
  get_own "Bob" (wsConnections st) = option_map fst (last_bearing "Bob" evs) /\
  get_own "Bob" (players st) = option_map snd (last_bearing "Bob" evs).
Proof.
  split; [repeat constructor|].
  apply (each_key_holds_its_last_message
           [message_from quiet 1 (update_message "Bob" (JNum "3"));
            message_from first_handle_dead 2
              (JsonText (JObj [("playerId", JStr "Bob")]));
            closed 2;
            message_from quiet 3 (NotJson "Bob")] "Bob").
  repeat constructor.
Defined.

(** * What a snapshot shows *)

Lemma plain_run_last_bearing evs k : forall st,
  Forall (fun ev => bears "__proto__" ev = false) evs ->
  wsConnections_proto st = None ->
  get_own k (wsConnections (fst (run evs st))) =
    match last_bearing k evs with
    | Some w => Some (fst w)
    | None => get_own k (wsConnections st)
    end /\
  get_own k (players (fst (run evs st))) =
    match last_bearing k evs with
    | Some w => Some (snd w)
    | None => get_own k (players st)
    end.
Proof.
  intros st Hall. revert st.
  induction Hall as [|ev rest Hev Hrest IH]; intros st Hp; [auto|].
  rewrite run_cons. cbn [fst last_bearing]. rewrite step_after.
  destruct ev as [c|env c m|c].
  - destruct (IH st Hp) as (-> & ->). destruct (last_bearing k rest); auto.
  - assert (Hplain : wsConnections_proto (after (on_message env c m st)) = None /\
        get_own k (wsConnections (after (on_message env c m st))) =
          match decode m with
          | inr (k', _) => if String.eqb k' k then Some c else get_own k (wsConnections st)
          | inl _ => get_own k (wsConnections st)
          end /\
        get_own k (players (after (on_message env c m st))) =
          match decode m with
          | inr (k', score) => if String.eqb k' k then Some score else get_own k (players st)
          | inl _ => get_own k (players st)
          end).
    { rewrite on_message_after.
      destruct (decode m) as [e|[k' score]] eqn:Hd; [auto|].
      pose proof (bears_proto_decode _ _ _ _ _ Hev Hd) as Hk.
      rewrite (assign_wsConnections_plain_eq _ _ _ _ Hp Hk). cbn [completion after].
      rewrite (assign_players_plain_eq _ _ _ Hk).
      cbn [after with_players with_wsConnections wsConnections wsConnections_proto
           players players_proto].
      rewrite (String.eqb_sym k' k). split; [exact Hp|]. split; apply get_own_upsert. }
    destruct Hplain as (Hp' & Hw & Hs).
    destruct (IH _ Hp') as (-> & ->).
    destruct (last_bearing k rest); [auto|]. rewrite Hw, Hs.
    destruct (decode m) as [e|[k' score]]; [auto|].
    destruct (String.eqb k' k); auto.
  - destruct (IH st Hp) as (-> & ->). destruct (last_bearing k rest); auto.
Qed.

(** X5: what a snapshot shows of a run.  After a run from the start in which
    no message bears [__proto__], the snapshot the server broadcasts (the
    serialization of [players]) holds an identifier exactly when the last
    message bearing it carried a score, and then holds that score as
    serialized.  A player whose last message had no [score] is not in the
    snapshot, although the handler has stored it: its identifier is a key of
    [players], with the value [undefined], and its connection is registered,
    so it is sent the snapshots it does not appear in. *)
Theorem snapshot_lists_the_scored_identifiers evs k :
  Forall (fun ev => bears "__proto__" ev = false) evs ->
  let st := fst (run evs initial) in
  JSON_stringify (players st) = JObj (entries (players st)) /\
  get_own k (entries (players st)) =
    match last_bearing k evs with
    | Some (_, Of j) => Some (rewritten j)
    | _ => None
    end /\
  (forall c, last_bearing k evs = Some (c, undefined) ->
     get_own k (players st) = Some undefined /\
     get_own k (wsConnections st) = Some c /\
     In c (Object_values (wsConnections st)) /\
     get_own k (entries (players st)) = None).
Proof.
  intros Hall. cbn zeta. set (st := fst (run evs initial)).
  destruct (plain_run_last_bearing evs k initial Hall eq_refl) as (Hw & Hs).
  fold st in Hw, Hs.
  assert (Hnd : NoDup (Object_keys (players st)))
    by (apply (reachable_keys st); now exists evs).
  split; [reflexivity|]. split.
  - destruct (last_bearing k evs) as [[c [|j]]|]; cbn [snd] in Hs.
    + apply get_own_entries_none; auto.
    + now apply get_own_entries_value.
    + apply get_own_entries_none; auto.
  - intros c Hlast. rewrite Hlast in Hw, Hs. cbn [fst snd] in Hw, Hs.
    repeat split; auto.
    + now apply (get_own_value k).
    + apply get_own_entries_none; auto.
Qed.

Lemma snapshot_lists_the_scored_identifiers_witness :
  let evs := [message_from quiet 1 (update_message "Alice" (JNum "5"));
              message_from quiet 2 (JsonText (JObj [("playerId", JStr "Bob")]))] in
  Forall (fun ev => bears "__proto__" ev = false) evs /\
  last_bearing "Bob" evs = Some (2, undefined) /\
  let st := fst (run evs initial) in
  JSON_stringify (players st) = JObj (entries (players st)) /\
  get_own "Bob" (entries (players st)) =
    match last_bearing "Bob" evs with
    | Some (_, Of j) => Some (rewritten j)
    | _ => None
    end /\
  (forall c, last_bearing "Bob" evs = Some (c, undefined) ->
     get_own "Bob" (players st) = Some undefined /\
     get_own "Bob" (wsConnections st) = Some c /\
     In c (Object_values (wsConnections st)) /\
     get_own "Bob" (entries (players st)) = None).
Proof.
  split; [repeat constructor|]. split; [reflexivity|].
  apply (snapshot_lists_the_scored_identifiers
           [message_from quiet 1 (update_message "Alice" (JNum "5"));
            message_from quiet 2 (JsonText (JObj [("playerId", JStr "Bob")]))] "Bob").
  repeat constructor.
Defined.

(** * One message, one snapshot *)

(** X20: handling one message sends one text only, and at most once per
    entry of the registry: all the sends of a message carry the same
    snapshot, that of the state the message leaves, and there are no more of
    them than [wsConnections] has entries. *)
Theorem one_message_one_snapshot env c m st :
  let o := on_message env c m st in
  Forall (fun s => snd s = JSON_stringify (players (after o))) (sends (trace o)) /\
  length (sends (trace o)) <= length (wsConnections (after o)).
Proof.
  cbn zeta. destruct (on_message_sends env c m st) as [->| ->].
  - split; [constructor | cbn; lia].
  - split.
    + apply Forall_forall. intros s Hs. apply in_map_iff in Hs.
      now destruct Hs as (h & <- & _).
    + rewrite length_map.
      assert (Hlen : forall l, length (delivered env l) <= length l).
      { induction l as [|x l IH]; cbn; [lia|].
        destruct (send_raises env x); cbn; lia. }
      etransitivity; [apply Hlen|]. unfold Object_values. now rewrite length_map.
Qed.

(** * After the provider's cleanup *)

(** X21: once the cleanup of the provider's effect has run, [setScore] is a
    silent no-op whatever state the socket was in: [socket.close()] leaves
    the socket closing or closed, where the browser discards what is sent.
    This holds from the connecting state too, where [setScore] would have
    raised before the cleanup. *)
Theorem setScore_after_cleanup_is_silent playerId score (st : WsContext.Provider) :
  let st' := after (WsContext.cleanup st) in
  WsContext.players st' = WsContext.players st /\
  WsContext.setScore playerId score st' =
  {| after := st'; trace := []; completion := inr tt |}.
Proof.
  destruct st as [cached [[| | |]|]]; cbn; auto.
Qed.
